(** * LEB128: unsigned and signed variable-length integers

    A shallow embedding of [leb128.go] (package [leb128]) and the
    properties its specification states about it.

    Conventions of the embedding:
    - [uint32] and [uint64] values are numbers of type [N]; every place where
      Go truncates to the width of the type is written [uint32 _] or
      [uint64 _].  [int64] values are numbers of type [Z], truncation is
      [int64 _] (two's complement).  The shift counter (Go's [uint]) is an
      [N]; it never exceeds 70.
    - a byte that travels (in a slice, through a reader) is a [Byte.byte];
      inside a function the local [b] is its numeric value.
    - Go's [error] is the type [error] below, [nil] is [None].
    - an [io.Reader] is a state of some type [R] with a function [Read]; the
      decoders receive the reader and give it back with their result. *)

From Equations Require Import Equations.
From Stdlib Require Import NArith ZArith List Lia Bool.
From Stdlib.Strings Require Import Byte.
Import ListNotations.

Set Default Goal Selector "!".

(** [lia] is to know division and remainder by a constant. *)
Ltac Zify.zify_post_hook ::= Z.to_euclidean_division_equations.

(** ** Errors *)

(** [io.EOF], the two errors of the package, and whatever else a reader may
    answer. *)
Inductive error : Type :=
| io_EOF
| ErrOverflow
| ErrNonMinimal
| ErrSource (code : nat).

(** ** Machine integers *)

Definition uint8 (n : N) : N := (n mod 2 ^ 8)%N.
Definition uint32 (n : N) : N := (n mod 2 ^ 32)%N.
Definition uint64 (n : N) : N := (n mod 2 ^ 64)%N.
Definition int64 (z : Z) : Z := ((z + 2 ^ 63) mod 2 ^ 64 - 2 ^ 63)%Z.

Definition byte_to_N (b : byte) : N := Byte.to_N b.
Definition byte_to_Z (b : byte) : Z := Z.of_N (Byte.to_N b).

(** The conversion [byte(x)] followed by storing the byte. *)
Definition byte_of_N (n : N) : byte :=
  match Byte.of_N (uint8 n) with
  | Some b => b
  | None => x00
  end.
Definition byte_of_Z (z : Z) : byte := byte_of_N (Z.to_N (z mod 2 ^ 8)).

(** [a > b] on [uint], with the evidence the loops need to terminate. *)
Definition N_gt_dec (a b : N) : {(b < a)%N} + {(a <= b)%N}.
Proof.
  destruct (N.ltb b a) eqn:E.
  - left. apply N.ltb_lt. exact E.
  - right. apply N.ltb_ge. exact E.
Defined.

(** ** Readers *)

(** [Read r buf] is [r.Read(buf)] for a one-byte [buf]: it answers the content
    of [buf] after the call, the error, and the reader after the call.  The
    count of bytes read is left out: no decoder looks at it. *)
Definition reader (R : Type) : Type := R -> byte -> byte * option error * R.

(** [bytes.NewReader(l)]: the bytes of [l] one by one, then [io.EOF]. *)
Definition bytesRead : reader (list byte) :=
  fun l buf =>
    match l with
    | [] => (buf, Some io_EOF, [])
    | b :: l' => (b, None, l')
    end.

(** One answer of a reader: the byte left in [buf] and the error. *)
Definition answer : Type := byte * option error.

(** A reader that keeps a log of what the wrapped reader answered, one entry
    for each call of [Read].  It is the device by which the theorems speak of
    the calls a decoder makes. *)
Definition logRead {R : Type} (Read : reader R) : reader (R * list answer) :=
  fun s buf =>
    let '(buf', err, r') := Read (fst s) buf in
    (buf', err, (r', snd s ++ [(buf', err)])).

(** A reader that plays a script of answers, and [io.EOF] after it. *)
Definition scriptRead : reader (list answer) :=
  fun s buf =>
    match s with
    | [] => (buf, Some io_EOF, [])
    | (b, err) :: s' => (b, err, s')
    end.

Definition has_flag (x : byte) : bool := negb (N.land (byte_to_N x) 0x80 =? 0)%N.

(** A byte that lets the loop go on: no error, continuation flag set. *)
Definition goes_on (a : answer) : Prop := snd a = None /\ has_flag (fst a) = true.

(** The error a decoder answers when the reader answers [e]. *)
Definition passed_on (e : error) : error :=
  match e with
  | io_EOF => ErrNonMinimal
  | _ => e
  end.

(** What a run of a decoder over a logging reader leaves behind, when the log
    was [log0] at the start: some more answers, all but the last of them bytes
    with the flag; and if the last one is an error, the decoder stopped on it
    with value [zero] and that error passed on. *)
Definition reads_ok {V R : Type} (zero : V) (log0 : list answer)
           (out : V * option error * (R * list answer)) : Prop :=
  exists (front : list answer) (last : answer),
    snd (snd out) = log0 ++ front ++ [last] /\
    Forall goes_on front /\
    forall e, snd last = Some e ->
              fst (fst out) = zero /\ snd (fst out) = Some (passed_on e).

(** The log of a run over a logging reader. *)
Definition log_of {V R : Type} (out : V * option error * (R * list answer))
  : list answer := snd (snd out).

(** ** Decoders *)

Section Decoders.

Context {R : Type} (Read : reader R).

Open Scope N_scope.

(** The loop of [DecodeU32]; the state is [res], [shift] and the content of
    [buf].  It ends because [shift] grows by 7 and the loop is left once it is
    above 32. *)
Equations? DecodeU32_loop (r : R) (res shift : N) (buf : byte)
  : N * option error * R by wf (N.to_nat (39 - shift)) lt :=
DecodeU32_loop r res shift buf :=
  let '(buf, err, r) := Read r buf in
  match err with
  | Some io_EOF => (0, Some ErrNonMinimal, r)
  | Some err => (0, Some err, r)
  | None =>
      let b := byte_to_N buf in
      let res := N.lor res (uint32 (N.shiftl (N.land b 0x7F) shift)) in
      let shift := shift + 7 in
      if N.land b 0x80 =? 0 then
        if (32 <? shift) && (0xF <? b) then (0, Some ErrOverflow, r)
        else if (7 <? shift) && (b =? 0) then (0, Some ErrNonMinimal, r)
        else (res, None, r)
      else
        match N_gt_dec shift 32 with
        | left _ => (0, Some ErrOverflow, r)
        | right _ => DecodeU32_loop r res shift buf
        end
  end.
Proof.
  subst shift.
  change (N.to_nat (39 - (shift0 + 7)) < N.to_nat (39 - shift0))%nat. lia.
Qed.

Definition DecodeU32 (r : R) : N * option error * R :=
  DecodeU32_loop r 0 0 x00.

(** The loop of [DecodeU64]. *)
Equations? DecodeU64_loop (r : R) (res shift : N) (buf : byte)
  : N * option error * R by wf (N.to_nat (71 - shift)) lt :=
DecodeU64_loop r res shift buf :=
  let '(buf, err, r) := Read r buf in
  match err with
  | Some io_EOF => (0, Some ErrNonMinimal, r)
  | Some err => (0, Some err, r)
  | None =>
      let b := byte_to_N buf in
      let res := N.lor res (uint64 (N.shiftl (N.land b 0x7F) shift)) in
      let shift := shift + 7 in
      if N.land b 0x80 =? 0 then
        if (64 <? shift) && (1 <? b) then (0, Some ErrOverflow, r)
        else if (7 <? shift) && (b =? 0) then (0, Some ErrNonMinimal, r)
        else (res, None, r)
      else
        match N_gt_dec shift 64 with
        | left _ => (0, Some ErrOverflow, r)
        | right _ => DecodeU64_loop r res shift buf
        end
  end.
Proof.
  subst shift.
  change (N.to_nat (71 - (shift0 + 7)) < N.to_nat (71 - shift0))%nat. lia.
Qed.

Definition DecodeU64 (r : R) : N * option error * R :=
  DecodeU64_loop r 0 0 x00.

(** [DecodeU32_loop] and [DecodeU64_loop] differ in the width [W] of the
    result and in the limit [lim] of the last byte only.  This is their
    common shape, used to prove facts about both at once; the lemmas
    [DecodeU32_loop_generic] and [DecodeU64_loop_generic] below show that
    each is an instance of it. *)
Equations? DecodeU_loop (W lim : N) (r : R) (res shift : N) (buf : byte)
  : N * option error * R by wf (N.to_nat (W + 7 - shift)) lt :=
DecodeU_loop W lim r res shift buf :=
  let '(buf, err, r) := Read r buf in
  match err with
  | Some io_EOF => (0, Some ErrNonMinimal, r)
  | Some err => (0, Some err, r)
  | None =>
      let b := byte_to_N buf in
      let res := N.lor res (N.shiftl (N.land b 0x7F) shift mod 2 ^ W) in
      let shift := shift + 7 in
      if N.land b 0x80 =? 0 then
        if (W <? shift) && (lim <? b) then (0, Some ErrOverflow, r)
        else if (7 <? shift) && (b =? 0) then (0, Some ErrNonMinimal, r)
        else (res, None, r)
      else
        match N_gt_dec shift W with
        | left _ => (0, Some ErrOverflow, r)
        | right _ => DecodeU_loop W lim r res shift buf
        end
  end.
Proof.
  subst shift. lia.
Qed.

(** The loop of [DecodeS64]; [prev] is the byte of the iteration before. *)
Equations? DecodeS64_loop (r : R) (res : Z) (shift : N) (prev : Z) (buf : byte)
  : Z * option error * R by wf (N.to_nat (71 - shift)) lt :=
DecodeS64_loop r res shift prev buf :=
  let '(buf, err, r) := Read r buf in
  match err with
  | Some io_EOF => (0%Z, Some ErrNonMinimal, r)
  | Some err => (0%Z, Some err, r)
  | None =>
      let b := byte_to_Z buf in
      let res := Z.lor res (int64 (Z.shiftl (Z.land b 0x7F) (Z.of_N shift))) in
      let shift := shift + 7 in
      if (Z.land b 0x80 =? 0)%Z then
        if (64 <? shift) && negb (b =? 0)%Z && negb (b =? 0x7f)%Z then
          (0%Z, Some ErrOverflow, r)
        else if (7 <? shift) &&
                ((b =? 0)%Z && (Z.land prev 0x40 =? 0)%Z
                 || (b =? 0x7f)%Z && (0 <? Z.land prev 0x40)%Z) then
          (0%Z, Some ErrNonMinimal, r)
        else if (shift <? 64) && (0 <? Z.land b 0x40)%Z then
          (Z.lor res (int64 (Z.shiftl (-1) (Z.of_N shift))), None, r)
        else (res, None, r)
      else
        match N_gt_dec shift 64 with
        | left _ => (0%Z, Some ErrOverflow, r)
        | right _ => DecodeS64_loop r res shift b buf
        end
  end.
Proof.
  subst shift.
  change (N.to_nat (71 - (shift0 + 7)) < N.to_nat (71 - shift0))%nat. lia.
Qed.

Definition DecodeS64 (r : R) : Z * option error * R :=
  DecodeS64_loop r 0%Z 0 0%Z x00.

End Decoders.

(** ** Encoders *)

(** The loop [for !done] of [EncodeU32].  The [if] of the source either sets
    [done] or sets the flag of [b].  The loop ends because [num] gets shorter
    as long as [done] stays false; the measure counts bits, so that the
    definition computes on large numbers too. *)
Equations? EncodeU32_loop (num : N) (buf : list byte) (done : bool)
  : list byte by wf (if done then 0 else S (N.to_nat (N.log2 num)))%nat lt :=
EncodeU32_loop num buf true := buf;
EncodeU32_loop num buf false :=
  let b := uint8 (N.land num 0x7F) in
  let num := N.shiftr num 7 in
  let done := if (num =? 0)%N then true else false in
  let b := if (num =? 0)%N then b else N.lor b 0x80 in
  EncodeU32_loop num (buf ++ [byte_of_N b]) done.
Proof.
  change (N.div2 _) with (N.shiftr num0 7) in *. subst done.
  destruct (num =? 0)%N eqn:E; simpl; [lia|].
  apply N.eqb_neq in E.
  change ((S (N.to_nat (N.log2 num))) < S (N.to_nat (N.log2 num0)))%nat.
  assert (Hlog : (N.log2 num < N.log2 num0)%N); [|lia].
  subst num. rewrite N.log2_shiftr.
  assert (H7 : (7 <= N.log2 num0)%N); [|lia].
  destruct (N.le_gt_cases 7 (N.log2 num0)) as [Hle|Hgt]; [exact Hle|].
  exfalso. apply E. apply N.shiftr_eq_0. exact Hgt.
Qed.

Definition EncodeU32 (num : N) : list byte := EncodeU32_loop num [] false.

(** The loop of [EncodeU64]. *)
Equations? EncodeU64_loop (num : N) (buf : list byte) (done : bool)
  : list byte by wf (if done then 0 else S (N.to_nat (N.log2 num)))%nat lt :=
EncodeU64_loop num buf true := buf;
EncodeU64_loop num buf false :=
  let b := uint8 (N.land num 0x7F) in
  let num := N.shiftr num 7 in
  let done := if (num =? 0)%N then true else false in
  let b := if (num =? 0)%N then b else N.lor b 0x80 in
  EncodeU64_loop num (buf ++ [byte_of_N b]) done.
Proof.
  change (N.div2 _) with (N.shiftr num0 7) in *. subst done.
  destruct (num =? 0)%N eqn:E; simpl; [lia|].
  apply N.eqb_neq in E.
  change ((S (N.to_nat (N.log2 num))) < S (N.to_nat (N.log2 num0)))%nat.
  assert (Hlog : (N.log2 num < N.log2 num0)%N); [|lia].
  subst num. rewrite N.log2_shiftr.
  assert (H7 : (7 <= N.log2 num0)%N); [|lia].
  destruct (N.le_gt_cases 7 (N.log2 num0)) as [Hle|Hgt]; [exact Hle|].
  exfalso. apply E. apply N.shiftr_eq_0. exact Hgt.
Qed.

Definition EncodeU64 (num : N) : list byte := EncodeU64_loop num [] false.

(** The loop of [EncodeS64]; [Z.shiftr] is the arithmetic shift.  The
    distance of [num] from the pair 0, -1 gets smaller as long as [done]
    stays false. *)
Equations? EncodeS64_loop (num : Z) (buf : list byte) (done : bool)
  : list byte
  by wf (if done then 0 else S (Z.to_nat (Z.log2 (Z.abs (2 * num + 1)))))%nat lt :=
EncodeS64_loop num buf true := buf;
EncodeS64_loop num buf false :=
  let b := (Z.land num 0x7F mod 2 ^ 8)%Z in
  let num := Z.shiftr num 7 in
  let signBit := Z.land b 0x40 in
  let last :=
    (num =? 0)%Z && (signBit =? 0)%Z
    || (num =? -1)%Z && negb (signBit =? 0)%Z in
  let done := if last then true else false in
  let b := if last then b else Z.lor b 0x80 in
  EncodeS64_loop num (buf ++ [byte_of_Z b]) done.
Proof.
  change ((if done then 0 else S (Z.to_nat (Z.log2 (Z.abs (2 * num + 1)))))
          < S (Z.to_nat (Z.log2 (Z.abs (2 * num0 + 1)))))%nat.
  subst done. destruct last eqn:E; [lia|].
  assert (H0 : num0 <> 0%Z) by (intros ->; discriminate E).
  assert (H1 : num0 <> (-1)%Z) by (intros ->; discriminate E).
  subst num. rewrite Z.shiftr_div_pow2 by lia. change (2 ^ 7)%Z with 128%Z.
  set (y := Z.abs (2 * (num0 / 128) + 1)).
  set (x := Z.abs (2 * num0 + 1)).
  assert (Hy : (0 < y)%Z) by (subst y; lia).
  assert (Hxy : (2 * y <= x)%Z) by (subst x y; lia).
  assert (Hlog : (Z.log2 y < Z.log2 x)%Z).
  { apply Z.lt_le_trans with (m := Z.log2 (2 * y)).
    - rewrite Z.log2_double by exact Hy. lia.
    - apply Z.log2_le_mono. exact Hxy. }
  pose proof (Z.log2_nonneg y). lia.
Qed.

Definition EncodeS64 (num : Z) : list byte := EncodeS64_loop num [] false.

(** ** The examples of the specification *)

Example EncodeU32_examples :
  EncodeU32 0 = [x00] /\ EncodeU32 127 = [x7f] /\
  EncodeU32 128 = [x80; x01] /\ EncodeU32 300 = [xac; x02].
Proof. repeat split; reflexivity. Qed.

Example EncodeS64_examples :
  EncodeS64 (-1) = [x7f] /\ EncodeS64 (-128) = [x80; x7f] /\
  EncodeS64 63 = [x3f] /\ EncodeS64 (-64) = [x40].
Proof. repeat split; reflexivity. Qed.

Example DecodeU32_redundant_zero :
  DecodeU32 bytesRead [x80; x00] = (0%N, Some ErrNonMinimal, []).
Proof. reflexivity. Qed.

(** * Bytes and bits *)

Lemma byte_to_N_lt (b : byte) : (byte_to_N b < 256)%N.
Proof. unfold byte_to_N. pose proof (Byte.to_N_bounded b). lia. Qed.

Lemma byte_of_to_N (b : byte) : byte_of_N (byte_to_N b) = b.
Proof.
  unfold byte_of_N, byte_to_N, uint8.
  rewrite N.mod_small by apply byte_to_N_lt.
  rewrite Byte.of_to_N. reflexivity.
Qed.

Lemma byte_to_of_N (n : N) : (n < 256)%N -> byte_to_N (byte_of_N n) = n.
Proof.
  intros Hn. unfold byte_of_N, byte_to_N, uint8.
  rewrite N.mod_small by exact Hn.
  destruct (Byte.of_N n) as [b|] eqn:E.
  - apply Byte.to_of_N. exact E.
  - apply Byte.of_N_None_iff in E. lia.
Qed.

Lemma byte_to_Z_range (b : byte) : (0 <= byte_to_Z b < 256)%Z.
Proof. unfold byte_to_Z. pose proof (byte_to_N_lt b). unfold byte_to_N in *. lia. Qed.

Lemma byte_of_to_Z (b : byte) : byte_of_Z (byte_to_Z b) = b.
Proof.
  unfold byte_of_Z. change (2 ^ 8)%Z with 256%Z.
  rewrite Z.mod_small by apply byte_to_Z_range.
  unfold byte_to_Z. rewrite N2Z.id. apply byte_of_to_N.
Qed.

Lemma byte_to_of_Z (z : Z) : (0 <= z < 256)%Z -> byte_to_Z (byte_of_Z z) = z.
Proof.
  intros Hz. unfold byte_of_Z, byte_to_Z. change (2 ^ 8)%Z with 256%Z.
  rewrite Z.mod_small by exact Hz.
  change (Byte.to_N (byte_of_N (Z.to_N z))) with (byte_to_N (byte_of_N (Z.to_N z))).
  rewrite byte_to_of_N by lia. lia.
Qed.

(** The continuation flag of a byte is clear when the byte is below 128. *)
Lemma flag_clear_N (x : byte) :
  (N.land (byte_to_N x) 0x80 =? 0)%N = (byte_to_N x <? 128)%N.
Proof. destruct x; reflexivity. Qed.

Lemma flag_clear_Z (x : byte) :
  (Z.land (byte_to_Z x) 0x80 =? 0)%Z = (byte_to_Z x <? 128)%Z.
Proof. destruct x; reflexivity. Qed.

Lemma payload_N (n : N) : N.land n 0x7F = (n mod 128)%N.
Proof. change 0x7F%N with (N.ones 7). apply N.land_ones. Qed.

Lemma payload_Z (z : Z) : Z.land z 0x7F = (z mod 128)%Z.
Proof. change 0x7F%Z with (Z.ones 7). apply Z.land_ones. lia. Qed.

(** Bits or-ed in above the bits present are added. *)
Lemma N_lor_high (a b s : N) :
  (a < 2 ^ s)%N -> N.lor a (b * 2 ^ s) = (a + b * 2 ^ s)%N.
Proof.
  intros Ha. rewrite <- N.shiftl_mul_pow2.
  assert (Hd : N.land a (N.shiftl b s) = 0%N).
  { apply N.bits_inj_0. intros n. rewrite N.land_spec.
    destruct (N.lt_ge_cases n s) as [Hlt|Hge].
    - rewrite N.shiftl_spec_low by exact Hlt. apply andb_false_r.
    - rewrite <- (N.mod_small a (2 ^ s)) by exact Ha.
      rewrite N.mod_pow2_bits_high by exact Hge. reflexivity. }
  rewrite <- N.lxor_lor by exact Hd.
  symmetry. apply N.add_nocarry_lxor. exact Hd.
Qed.

Lemma Z_lor_high (a b s : Z) :
  (0 <= s)%Z -> (0 <= a < 2 ^ s)%Z -> Z.lor a (b * 2 ^ s) = (a + b * 2 ^ s)%Z.
Proof.
  intros Hs Ha. rewrite <- Z.shiftl_mul_pow2 by exact Hs.
  assert (Hd : Z.land a (Z.shiftl b s) = 0%Z).
  { apply Z.bits_inj_0. intros n. rewrite Z.land_spec.
    destruct (Z.lt_ge_cases n s) as [Hlt|Hge].
    - destruct (Z.lt_ge_cases n 0) as [Hn|Hn].
      + rewrite (Z.testbit_neg_r _ n) by exact Hn. reflexivity.
      + rewrite Z.shiftl_spec_low by exact Hlt. apply andb_false_r.
    - rewrite <- (Z.mod_small a (2 ^ s)) by exact Ha.
      rewrite Z.mod_pow2_bits_high by lia. reflexivity. }
  rewrite <- Z.lxor_lor by exact Hd.
  symmetry. apply Z.add_nocarry_lxor. exact Hd.
Qed.

Lemma set_flag_N (p : N) : (p < 128)%N -> N.lor p 0x80 = (p + 128)%N.
Proof. intros Hp. apply (N_lor_high p 1 7). exact Hp. Qed.

Lemma set_flag_Z (p : Z) : (0 <= p < 128)%Z -> Z.lor p 0x80 = (p + 128)%Z.
Proof. intros Hp. apply (Z_lor_high p 1 7); [lia | exact Hp]. Qed.

(** * The unsigned encoders, one byte at a time *)

Lemma EncodeU32_loop_step (num : N) (buf : list byte) :
  EncodeU32_loop num buf false =
  if (num <? 128)%N then buf ++ [byte_of_N num]
  else EncodeU32_loop (num / 128) (buf ++ [byte_of_N (num mod 128 + 128)]) false.
Proof.
  rewrite EncodeU32_loop_equation_2. cbv zeta.
  rewrite N.shiftr_div_pow2, payload_N. change (2 ^ 7)%N with 128%N.
  assert (Hm : (num mod 128 < 128)%N) by (apply N.mod_lt; lia).
  unfold uint8. rewrite (N.mod_small (num mod 128)) by (change (2 ^ 8)%N with 256%N; lia).
  destruct (N.ltb_spec num 128) as [Hlt|Hge].
  - rewrite N.div_small by exact Hlt. simpl (0 =? 0)%N. cbv iota.
    rewrite EncodeU32_loop_equation_1, N.mod_small by exact Hlt. reflexivity.
  - assert (Hq : (num / 128 <> 0)%N).
    { intros Hq. apply N.div_small_iff in Hq; lia. }
    apply N.eqb_neq in Hq. rewrite Hq.
    rewrite set_flag_N by exact Hm. reflexivity.
Qed.

Lemma EncodeU64_loop_step (num : N) (buf : list byte) :
  EncodeU64_loop num buf false =
  if (num <? 128)%N then buf ++ [byte_of_N num]
  else EncodeU64_loop (num / 128) (buf ++ [byte_of_N (num mod 128 + 128)]) false.
Proof.
  rewrite EncodeU64_loop_equation_2. cbv zeta.
  rewrite N.shiftr_div_pow2, payload_N. change (2 ^ 7)%N with 128%N.
  assert (Hm : (num mod 128 < 128)%N) by (apply N.mod_lt; lia).
  unfold uint8. rewrite (N.mod_small (num mod 128)) by (change (2 ^ 8)%N with 256%N; lia).
  destruct (N.ltb_spec num 128) as [Hlt|Hge].
  - rewrite N.div_small by exact Hlt. simpl (0 =? 0)%N. cbv iota.
    rewrite EncodeU64_loop_equation_1, N.mod_small by exact Hlt. reflexivity.
  - assert (Hq : (num / 128 <> 0)%N).
    { intros Hq. apply N.div_small_iff in Hq; lia. }
    apply N.eqb_neq in Hq. rewrite Hq.
    rewrite set_flag_N by exact Hm. reflexivity.
Qed.

(** The two unsigned encoders run the same loop. *)
Lemma EncodeU64_loop_U32 (num : N) :
  forall buf, EncodeU64_loop num buf false = EncodeU32_loop num buf false.
Proof.
  induction num as [num IH] using (well_founded_induction N.lt_wf_0).
  intros buf. rewrite EncodeU64_loop_step, EncodeU32_loop_step.
  destruct (N.ltb_spec num 128) as [Hlt|Hge]; [reflexivity|].
  apply IH. apply N.div_lt; lia.
Qed.

Lemma EncodeU64_U32 (num : N) : EncodeU64 num = EncodeU32 num.
Proof. apply EncodeU64_loop_U32. Qed.

Lemma EncodeU32_loop_app (num : N) :
  forall buf, EncodeU32_loop num buf false = buf ++ EncodeU32 num.
Proof.
  unfold EncodeU32.
  induction num as [num IH] using (well_founded_induction N.lt_wf_0).
  intros buf. rewrite (EncodeU32_loop_step num buf), (EncodeU32_loop_step num []).
  destruct (N.ltb_spec num 128) as [Hlt|Hge]; [reflexivity|].
  assert (Hq : (num / 128 < num)%N) by (apply N.div_lt; lia).
  rewrite (IH _ Hq (buf ++ _)), (IH _ Hq ([] ++ _)).
  rewrite <- app_assoc. reflexivity.
Qed.

Lemma EncodeU32_last (num : N) :
  (num < 128)%N -> EncodeU32 num = [byte_of_N num].
Proof.
  intros Hlt. unfold EncodeU32. rewrite EncodeU32_loop_step.
  apply N.ltb_lt in Hlt. rewrite Hlt. reflexivity.
Qed.

Lemma EncodeU32_more (num : N) :
  (128 <= num)%N ->
  EncodeU32 num = byte_of_N (num mod 128 + 128) :: EncodeU32 (num / 128).
Proof.
  intros Hge. unfold EncodeU32 at 1. rewrite EncodeU32_loop_step.
  apply N.ltb_ge in Hge. rewrite Hge.
  rewrite EncodeU32_loop_app. reflexivity.
Qed.

(** * The unsigned decoders *)

Section Generic.

Context {R : Type} (Read : reader R).

Lemma DecodeU32_loop_generic (r : R) (res shift : N) (buf : byte) :
  DecodeU32_loop Read r res shift buf = DecodeU_loop Read 32 0xF r res shift buf.
Proof.
  remember (N.to_nat (39 - shift)) as n eqn:Hn.
  revert r res shift buf Hn.
  induction n as [n IH] using lt_wf_ind. intros r res shift buf Hn.
  rewrite DecodeU32_loop_equation_1, DecodeU_loop_equation_1.
  destruct (Read r buf) as [[b e] r']. destruct e as [[]|]; try reflexivity.
  cbv zeta. destruct (N.land (byte_to_N b) 128 =? 0)%N; [reflexivity|].
  destruct (N_gt_dec (shift + 7) 32) as [Hgt|Hle]; [reflexivity|].
  apply (IH (N.to_nat (39 - (shift + 7)))); [lia | reflexivity].
Qed.

Lemma DecodeU64_loop_generic (r : R) (res shift : N) (buf : byte) :
  DecodeU64_loop Read r res shift buf = DecodeU_loop Read 64 1 r res shift buf.
Proof.
  remember (N.to_nat (71 - shift)) as n eqn:Hn.
  revert r res shift buf Hn.
  induction n as [n IH] using lt_wf_ind. intros r res shift buf Hn.
  rewrite DecodeU64_loop_equation_1, DecodeU_loop_equation_1.
  destruct (Read r buf) as [[b e] r']. destruct e as [[]|]; try reflexivity.
  cbv zeta. destruct (N.land (byte_to_N b) 128 =? 0)%N; [reflexivity|].
  destruct (N_gt_dec (shift + 7) 64) as [Hgt|Hle]; [reflexivity|].
  apply (IH (N.to_nat (71 - (shift + 7)))); [lia | reflexivity].
Qed.

End Generic.

(** ** Decoding a slice of bytes, for any width *)

Section UnsignedWidth.

Variables W lim : N.

(** What ties the limit of the last byte to the width: at the one shift where
    a byte reaches above bit [W - 1], the bytes above [lim] are those that do
    not fit. *)
Hypothesis lim_fits : forall shift p : N,
  (shift mod 7 = 0)%N -> (shift <= W)%N -> (W < shift + 7)%N -> (p < 128)%N ->
  ((lim < p)%N <-> (2 ^ W <= p * 2 ^ shift)%N).

Open Scope N_scope.

Lemma pow2_shift7 (shift : N) : 2 ^ (shift + 7) = 128 * 2 ^ shift.
Proof. rewrite N.pow_add_r. change (2 ^ 7) with 128. lia. Qed.

(** Round trip, from any state of the loop: [res] holds the bits below
    [shift], [num] is what is left to decode. *)
Lemma DecodeU_loop_encode (num : N) :
  forall (res shift : N) (buf : byte) (rest : list byte),
    shift mod 7 = 0 -> shift <= W ->
    res < 2 ^ shift -> num * 2 ^ shift < 2 ^ W ->
    shift = 0 \/ num <> 0 ->
    DecodeU_loop bytesRead W lim (EncodeU32 num ++ rest) res shift buf
    = (res + num * 2 ^ shift, None, rest).
Proof.
  induction num as [num IH] using (well_founded_induction N.lt_wf_0).
  intros res shift buf rest Hmod HW Hres Hfit Hnz.
  assert (HP : 0 < 2 ^ shift) by (apply N.neq_0_lt_0, N.pow_nonzero; lia).
  rewrite DecodeU_loop_equation_1.
  destruct (N.lt_ge_cases num 128) as [Hlt|Hge].
  - (* the last byte *)
    rewrite EncodeU32_last by exact Hlt. cbn [app bytesRead]. cbv zeta.
    rewrite flag_clear_N, payload_N, N.shiftl_mul_pow2.
    rewrite byte_to_of_N by lia.
    rewrite (N.mod_small num 128) by exact Hlt.
    rewrite (N.mod_small _ (2 ^ W)) by exact Hfit.
    rewrite N_lor_high by exact Hres.
    rewrite (proj2 (N.ltb_lt num 128) Hlt).
    destruct (N.ltb_spec W (shift + 7)) as [Hov|Hov];
      destruct (N.ltb_spec lim num) as [Hl|Hl]; cbn [andb].
    1: { apply (proj1 (lim_fits shift num Hmod HW Hov Hlt)) in Hl. lia. }
    all: destruct (N.ltb_spec 7 (shift + 7)) as [Hs|Hs];
      destruct (N.eqb_spec num 0) as [Hz|Hz]; cbn [andb]; try reflexivity; lia.
  - (* a byte with the flag, and the rest *)
    assert (Hd := N.div_mod num 128 ltac:(lia)).
    assert (Hm : num mod 128 < 128) by (apply N.mod_lt; lia).
    rewrite EncodeU32_more by exact Hge. cbn [app bytesRead]. cbv zeta.
    rewrite flag_clear_N, payload_N, N.shiftl_mul_pow2.
    rewrite byte_to_of_N by lia.
    replace ((num mod 128 + 128) mod 128) with (num mod 128) by lia.
    assert (Hle : num mod 128 * 2 ^ shift <= num * 2 ^ shift)
      by (apply N.mul_le_mono_r; lia).
    rewrite (N.mod_small _ (2 ^ W)) by lia.
    rewrite N_lor_high by exact Hres.
    assert (Hf : (num mod 128 + 128 <? 128) = false) by (apply N.ltb_ge; lia).
    rewrite Hf.
    assert (H128 : 128 * 2 ^ shift <= num * 2 ^ shift)
      by (apply N.mul_le_mono_r; lia).
    destruct (N_gt_dec (shift + 7) W) as [Hgt|Hle7].
    + exfalso. assert (H7 : 2 ^ W <= 2 ^ (shift + 7)) by (apply N.pow_le_mono_r; lia).
      rewrite pow2_shift7 in H7. lia.
    + assert (Hq : num / 128 * (128 * 2 ^ shift) <= num * 2 ^ shift).
      { rewrite N.mul_assoc. apply N.mul_le_mono_r. lia. }
      rewrite IH.
      * rewrite pow2_shift7. f_equal. f_equal.
        rewrite Hd at 3. lia.
      * apply N.div_lt; lia.
      * lia.
      * exact Hle7.
      * rewrite pow2_shift7. nia.
      * rewrite pow2_shift7. lia.
      * right. intros Hq0. apply N.div_small_iff in Hq0; lia.
Qed.

(** What is accepted is an encoding, from any state of the loop. *)
Lemma DecodeU_loop_minimal (l : list byte) :
  forall (res shift : N) (buf : byte) (v : N) (rest : list byte),
    shift mod 7 = 0 -> shift <= W -> res < 2 ^ shift ->
    DecodeU_loop bytesRead W lim l res shift buf = (v, None, rest) ->
    exists num : N,
      l = EncodeU32 num ++ rest /\ v = res + num * 2 ^ shift /\
      (shift = 0 \/ num <> 0) /\ num * 2 ^ shift < 2 ^ W.
Proof.
  induction l as [|x l IH]; intros res shift buf v rest Hmod HW Hres Hdec;
    rewrite DecodeU_loop_equation_1 in Hdec; cbn [bytesRead] in Hdec.
  - discriminate Hdec.
  - cbv zeta in Hdec. rewrite flag_clear_N, payload_N, N.shiftl_mul_pow2 in Hdec.
    pose proof (byte_to_N_lt x) as Hx.
    assert (HP : 0 < 2 ^ shift) by (apply N.neq_0_lt_0, N.pow_nonzero; lia).
    destruct (N.ltb_spec (byte_to_N x) 128) as [Hlt|Hge].
    + (* the last byte *)
      rewrite (N.mod_small _ 128) in Hdec by exact Hlt.
      destruct (N.ltb_spec W (shift + 7)) as [Hov|Hov];
        destruct (N.ltb_spec lim (byte_to_N x)) as [Hl|Hl];
        cbn [andb] in Hdec; try discriminate Hdec;
        destruct (N.ltb_spec 7 (shift + 7)) as [Hs|Hs];
        destruct (N.eqb_spec (byte_to_N x) 0) as [Hz|Hz];
        cbn [andb] in Hdec; try discriminate Hdec.
      all: assert (Hfit : byte_to_N x * 2 ^ shift < 2 ^ W);
        [ first [ apply N.nle_gt; intros Hc;
                  apply (proj2 (lim_fits shift (byte_to_N x) Hmod HW Hov Hlt)) in Hc;
                  lia
                | apply N.lt_le_trans with (m := 2 ^ (shift + 7));
                  [ rewrite pow2_shift7; apply N.mul_lt_mono_pos_r; assumption
                  | apply N.pow_le_mono_r; lia ] ] | ].
      all: rewrite (N.mod_small _ (2 ^ W)) in Hdec by exact Hfit;
        rewrite N_lor_high in Hdec by exact Hres;
        injection Hdec as Hv Hrest; exists (byte_to_N x);
        rewrite EncodeU32_last, byte_of_to_N by exact Hlt;
        subst; repeat split; try assumption; lia.
    + (* a byte with the flag *)
      destruct (N_gt_dec (shift + 7) W) as [Hgt|Hle7]; [discriminate Hdec|].
      assert (Hm : byte_to_N x mod 128 < 128) by (apply N.mod_lt; lia).
      assert (Hxm : byte_to_N x = byte_to_N x mod 128 + 128).
      { pose proof (N.div_mod (byte_to_N x) 128 ltac:(lia)) as Hd.
        assert (byte_to_N x / 128 = 1); [|lia].
        apply N.le_antisymm.
        - apply N.lt_succ_r. apply N.Div0.div_lt_upper_bound. lia.
        - apply N.div_le_lower_bound; lia. }
      set (p := byte_to_N x mod 128) in *.
      assert (Hpfit : p * 2 ^ shift < 2 ^ (shift + 7))
        by (rewrite pow2_shift7; apply N.mul_lt_mono_pos_r; assumption).
      assert (H7W : 2 ^ (shift + 7) <= 2 ^ W) by (apply N.pow_le_mono_r; lia).
      rewrite (N.mod_small _ (2 ^ W)) in Hdec by lia.
      rewrite N_lor_high in Hdec by exact Hres.
      apply IH in Hdec.
      * destruct Hdec as (num & Hl & Hv & Hnz & Hfit).
        rewrite pow2_shift7 in *.
        exists (p + 128 * num).
        assert (Hnum : num <> 0) by lia.
        assert (Hdiv : (p + 128 * num) / 128 = num).
        { rewrite N.mul_comm, N.div_add by lia.
          rewrite N.div_small by exact Hm. reflexivity. }
        assert (Hmod' : (p + 128 * num) mod 128 = p).
        { rewrite N.mul_comm, N.Div0.mod_add.
          apply N.mod_small. exact Hm. }
        rewrite EncodeU32_more by lia.
        rewrite Hdiv, Hmod', <- Hxm, byte_of_to_N.
        repeat split.
        -- cbn [app]. f_equal. exact Hl.
        -- rewrite Hv. lia.
        -- right. lia.
        -- assert (HWs : 2 ^ W = 2 ^ (W - (shift + 7)) * (128 * 2 ^ shift)).
           { rewrite <- pow2_shift7, <- N.pow_add_r. f_equal. lia. }
           rewrite HWs in Hfit |- *.
           apply N.mul_lt_mono_pos_r in Hfit; [|lia].
           apply N.lt_le_trans with (m := 128 * 2 ^ (W - (shift + 7)) * 2 ^ shift);
             [apply N.mul_lt_mono_pos_r; lia | lia].
      * lia.
      * exact Hle7.
      * rewrite pow2_shift7 in *. nia.
Qed.

End UnsignedWidth.

(** ** The two widths of the package *)

Lemma lim_fits_32 (shift p : N) :
  (shift mod 7 = 0)%N -> (shift <= 32)%N -> (32 < shift + 7)%N -> (p < 128)%N ->
  ((0xF < p)%N <-> (2 ^ 32 <= p * 2 ^ shift)%N).
Proof.
  intros Hmod Hle Hgt Hp. assert (shift = 28%N) as -> by lia.
  change (2 ^ 32)%N with 4294967296%N. change (2 ^ 28)%N with 268435456%N. lia.
Qed.

Lemma lim_fits_64 (shift p : N) :
  (shift mod 7 = 0)%N -> (shift <= 64)%N -> (64 < shift + 7)%N -> (p < 128)%N ->
  ((1 < p)%N <-> (2 ^ 64 <= p * 2 ^ shift)%N).
Proof.
  intros Hmod Hle Hgt Hp. assert (shift = 63%N) as -> by lia.
  change (2 ^ 64)%N with 18446744073709551616%N.
  change (2 ^ 63)%N with 9223372036854775808%N. lia.
Qed.

Lemma DecodeU32_encode (v : N) (rest : list byte) :
  (v < 2 ^ 32)%N ->
  DecodeU32 bytesRead (EncodeU32 v ++ rest) = (v, None, rest).
Proof.
  intros Hv. unfold DecodeU32. rewrite DecodeU32_loop_generic.
  rewrite (DecodeU_loop_encode 32 0xF lim_fits_32);
    [f_equal; f_equal; rewrite N.pow_0_r; lia | reflexivity | lia
    | rewrite N.pow_0_r; lia | rewrite N.pow_0_r; lia | left; reflexivity].
Qed.

Lemma DecodeU64_encode (v : N) (rest : list byte) :
  (v < 2 ^ 64)%N ->
  DecodeU64 bytesRead (EncodeU64 v ++ rest) = (v, None, rest).
Proof.
  intros Hv. unfold DecodeU64. rewrite DecodeU64_loop_generic, EncodeU64_U32.
  rewrite (DecodeU_loop_encode 64 1 lim_fits_64);
    [f_equal; f_equal; rewrite N.pow_0_r; lia | reflexivity | lia
    | rewrite N.pow_0_r; lia | rewrite N.pow_0_r; lia | left; reflexivity].
Qed.

Lemma DecodeU32_minimal (l : list byte) (v : N) (rest : list byte) :
  DecodeU32 bytesRead l = (v, None, rest) -> l = EncodeU32 v ++ rest.
Proof.
  unfold DecodeU32. rewrite DecodeU32_loop_generic. intros Hdec.
  apply (DecodeU_loop_minimal 32 0xF lim_fits_32) in Hdec;
    [| reflexivity | lia | rewrite N.pow_0_r; lia].
  destruct Hdec as (num & Hl & Hv & _). rewrite N.pow_0_r in Hv.
  replace v with num by lia. exact Hl.
Qed.

Lemma DecodeU64_minimal (l : list byte) (v : N) (rest : list byte) :
  DecodeU64 bytesRead l = (v, None, rest) -> l = EncodeU64 v ++ rest.
Proof.
  unfold DecodeU64. rewrite DecodeU64_loop_generic, EncodeU64_U32. intros Hdec.
  apply (DecodeU_loop_minimal 64 1 lim_fits_64) in Hdec;
    [| reflexivity | lia | rewrite N.pow_0_r; lia].
  destruct Hdec as (num & Hl & Hv & _). rewrite N.pow_0_r in Hv.
  replace v with num by lia. exact Hl.
Qed.

(** * The signed encoder, one byte at a time *)

(** Bit 0x40 of a byte, as arithmetic. *)
Lemma sign_bit_byte (x : byte) :
  Z.land (byte_to_Z x) 0x40 = (if (byte_to_Z x mod 128 <? 64)%Z then 0 else 64)%Z.
Proof. destruct x; reflexivity. Qed.

Lemma sign_bit_Z (z : Z) :
  (0 <= z < 256)%Z ->
  Z.land z 0x40 = (if (z mod 128 <? 64)%Z then 0 else 64)%Z.
Proof.
  intros Hz. rewrite <- (byte_to_of_Z z Hz). apply sign_bit_byte.
Qed.

Lemma EncodeS64_loop_step (num : Z) (buf : list byte) :
  EncodeS64_loop num buf false =
  if ((-64 <=? num) && (num <? 64))%Z then buf ++ [byte_of_Z (num mod 128)]
  else EncodeS64_loop (num / 128) (buf ++ [byte_of_Z (num mod 128 + 128)]) false.
Proof.
  rewrite EncodeS64_loop_equation_2. cbv zeta.
  rewrite Z.shiftr_div_pow2, payload_Z by lia.
  change (2 ^ 7)%Z with 128%Z. change (2 ^ 8)%Z with 256%Z.
  assert (Hm : (0 <= num mod 128 < 128)%Z) by (apply Z.mod_pos_bound; lia).
  rewrite (Z.mod_small (num mod 128) 256) by lia.
  rewrite sign_bit_Z by lia.
  rewrite (Z.mod_small (num mod 128) 128) by lia.
  destruct (Z.leb_spec (-64) num) as [Hlo|Hlo];
    destruct (Z.ltb_spec num 64) as [Hhi|Hhi];
    destruct (Z.ltb_spec (num mod 128) 64) as [Hs|Hs];
    destruct (Z.eqb_spec (num / 128) 0) as [Hq0|Hq0];
    destruct (Z.eqb_spec (num / 128) (-1)) as [Hq1|Hq1];
    cbn; try (exfalso; lia);
    rewrite ?EncodeS64_loop_equation_1, ?set_flag_Z by lia; reflexivity.
Qed.

Lemma EncodeS64_loop_app (num : Z) :
  forall buf, EncodeS64_loop num buf false = buf ++ EncodeS64 num.
Proof.
  unfold EncodeS64.
  remember (Z.abs_nat num) as n eqn:Hn. revert num Hn.
  induction n as [n IH] using lt_wf_ind. intros num Hn buf.
  rewrite (EncodeS64_loop_step num buf), (EncodeS64_loop_step num []).
  destruct ((-64 <=? num) && (num <? 64))%Z eqn:E; [reflexivity|].
  assert (Hq : (Z.abs_nat (num / 128) < n)%nat).
  { apply andb_false_iff in E. rewrite Z.leb_gt, Z.ltb_ge in E. lia. }
  rewrite (IH _ Hq _ eq_refl (buf ++ _)), (IH _ Hq _ eq_refl ([] ++ _)).
  rewrite <- app_assoc. reflexivity.
Qed.

Lemma EncodeS64_last (num : Z) :
  (-64 <= num < 64)%Z -> EncodeS64 num = [byte_of_Z (num mod 128)].
Proof.
  intros Hn. unfold EncodeS64. rewrite EncodeS64_loop_step.
  replace ((-64 <=? num) && (num <? 64))%Z with true; [reflexivity|].
  symmetry. apply andb_true_iff. rewrite Z.leb_le, Z.ltb_lt. exact Hn.
Qed.

Lemma EncodeS64_more (num : Z) :
  (num < -64 \/ 64 <= num)%Z ->
  EncodeS64 num = byte_of_Z (num mod 128 + 128) :: EncodeS64 (num / 128).
Proof.
  intros Hn. unfold EncodeS64 at 1. rewrite EncodeS64_loop_step.
  replace ((-64 <=? num) && (num <? 64))%Z with false.
  - rewrite EncodeS64_loop_app. reflexivity.
  - symmetry. apply andb_false_iff. rewrite Z.leb_gt, Z.ltb_ge. exact Hn.
Qed.

(** * The signed decoder *)

Lemma int64_small (z : Z) : (- 2 ^ 63 <= z < 2 ^ 63)%Z -> int64 z = z.
Proof.
  unfold int64. change (2 ^ 63)%Z with 9223372036854775808%Z.
  change (2 ^ 64)%Z with 18446744073709551616%Z. lia.
Qed.

Lemma Z_pow2_shift7 (s : Z) : (0 <= s)%Z -> (2 ^ (s + 7) = 128 * 2 ^ s)%Z.
Proof. intros Hs. rewrite Z.pow_add_r by lia. change (2 ^ 7)%Z with 128%Z. lia. Qed.

Lemma Z_pow2_le_63 (s : Z) : (0 <= s <= 63)%Z -> (0 < 2 ^ s <= 2 ^ 63)%Z.
Proof.
  intros Hs. split.
  - apply Z.pow_pos_nonneg; lia.
  - apply Z.pow_le_mono_r; lia.
Qed.

Section SignedSteps.

Context {R : Type} (Read : reader R).

Open Scope Z_scope.

(** One iteration of [DecodeS64_loop] on a byte without the flag, with the
    bit operations turned into arithmetic. *)
Lemma DecodeS64_loop_last (r r' : R) (x : byte) (res : Z) (shift : N)
      (prev : Z) (buf : byte) :
  Read r buf = (x, None, r') ->
  byte_to_Z x < 128 ->
  (shift mod 7 = 0)%N -> (shift <= 63)%N ->
  0 <= res < 2 ^ Z.of_N shift -> 0 <= prev < 256 ->
  DecodeS64_loop Read r res shift prev buf =
  let b := byte_to_Z x in
  if (shift =? 63)%N && negb (b =? 0) && negb (b =? 127) then
    (0, Some ErrOverflow, r')
  else if (0 <? shift)%N &&
          ((b =? 0) && (prev mod 128 <? 64)
           || (b =? 127) && (64 <=? prev mod 128)) then
    (0, Some ErrNonMinimal, r')
  else (res + (if b <? 64 then b else b - 128) * 2 ^ Z.of_N shift, None, r').
Proof.
  intros HRead Hx Hmod Hle Hres Hprev.
  rewrite DecodeS64_loop_equation_1, HRead. cbv zeta.
  pose proof (byte_to_Z_range x) as Hb.
  rewrite flag_clear_Z, payload_Z, Z.shiftl_mul_pow2 by lia.
  rewrite (sign_bit_Z prev Hprev), sign_bit_byte.
  rewrite (Z.mod_small (byte_to_Z x) 128) by lia.
  rewrite (proj2 (Z.ltb_lt _ _) Hx).
  set (b := byte_to_Z x) in *.
  rewrite Z.shiftl_mul_pow2, N2Z.inj_add by lia.
  change (Z.of_N 7) with 7.
  assert (Hcase : (shift = 63 \/ shift <= 56)%N) by lia.
  destruct Hcase as [-> | H56].
  - (* the tenth byte *)
    change (Z.of_N 63) with 63 in *. change (63 + 7)%N with 70%N.
    change (63 =? 63)%N with true. change (64 <? 70)%N with true.
    change (7 <? 70)%N with true. change (70 <? 64)%N with false.
    change (0 <? 63)%N with true. cbn [andb].
    destruct (Z.ltb_spec (prev mod 128) 64) as [Hp|Hp];
      destruct (Z.leb_spec 64 (prev mod 128)) as [Hp'|Hp']; try (exfalso; lia).
    all: destruct (Z.eqb_spec b 0) as [Hb0|Hb0];
      [ rewrite Hb0; change (int64 (0 * 2 ^ 63)) with 0; rewrite !Z.lor_0_r
      | destruct (Z.eqb_spec b 127) as [Hb1|Hb1];
        [ rewrite Hb1; change (int64 (127 * 2 ^ 63)) with (-1 * 2 ^ 63);
          rewrite !Z_lor_high by lia | ] ].
    all: cbn [andb orb negb Z.eqb Z.ltb Z.compare Pos.compare Pos.compare_cont Z.sub
              Z.add Z.opp Z.pos_sub Z.succ_double Z.pred_double Z.double
              Pos.pred_double];
      try reflexivity.
    all: f_equal; f_equal; lia.
  - (* an earlier byte *)
    set (s := Z.of_N shift) in *.
    assert (Hs : 0 <= s <= 56) by lia.
    pose proof (Z_pow2_le_63 s ltac:(lia)) as [HP _].
    pose proof (Z_pow2_le_63 (s + 7) ltac:(lia)) as [_ HP7].
    rewrite Z_pow2_shift7 in * by lia.
    assert (HbP : 0 <= b * 2 ^ s <= 127 * 2 ^ s) by nia.
    rewrite int64_small by lia.
    rewrite int64_small by lia.
    rewrite Z_lor_high by lia.
    replace (-1 * (128 * 2 ^ s)) with (-1 * 2 ^ (s + 7))
      by (rewrite Z_pow2_shift7 by lia; reflexivity).
    rewrite Z_lor_high by (rewrite ?Z_pow2_shift7 by lia; lia).
    rewrite Z_pow2_shift7 by lia.
    replace (shift =? 63)%N with false by (symmetry; apply N.eqb_neq; lia).
    replace (64 <? shift + 7)%N with false by (symmetry; apply N.ltb_ge; lia).
    replace (shift + 7 <? 64)%N with true by (symmetry; apply N.ltb_lt; lia).
    replace (7 <? shift + 7)%N with (0 <? shift)%N
      by (destruct (N.ltb_spec 0 shift); symmetry;
          [apply N.ltb_lt | apply N.ltb_ge]; lia).
    cbn [andb].
    destruct (0 <? shift)%N; destruct (Z.eqb_spec b 0) as [Hb0|Hb0];
      destruct (Z.eqb_spec b 127) as [Hb1|Hb1];
      destruct (Z.ltb_spec (prev mod 128) 64) as [Hp|Hp];
      destruct (Z.leb_spec 64 (prev mod 128)) as [Hp'|Hp'];
      destruct (Z.ltb_spec b 64) as [Hb6|Hb6];
      cbn [andb orb negb Z.ltb Z.eqb Z.compare Pos.compare Pos.compare_cont];
      try reflexivity; try (exfalso; lia); f_equal; f_equal; lia.
Qed.

(** One iteration of [DecodeS64_loop] on a byte with the flag. *)
Lemma DecodeS64_loop_more (r r' : R) (x : byte) (res : Z) (shift : N)
      (prev : Z) (buf : byte) :
  Read r buf = (x, None, r') ->
  128 <= byte_to_Z x ->
  (shift mod 7 = 0)%N -> (shift <= 63)%N ->
  0 <= res < 2 ^ Z.of_N shift ->
  DecodeS64_loop Read r res shift prev buf =
  if (shift =? 63)%N then (0, Some ErrOverflow, r')
  else DecodeS64_loop Read r' (res + (byte_to_Z x - 128) * 2 ^ Z.of_N shift)
                      (shift + 7) (byte_to_Z x) x.
Proof.
  intros HRead Hx Hmod Hle Hres.
  rewrite DecodeS64_loop_equation_1, HRead. cbv zeta.
  pose proof (byte_to_Z_range x) as Hb.
  rewrite flag_clear_Z, payload_Z, Z.shiftl_mul_pow2 by lia.
  rewrite (proj2 (Z.ltb_ge _ _) Hx).
  assert (Hcase : (shift = 63 \/ shift <= 56)%N) by lia.
  destruct Hcase as [-> | H56].
  - reflexivity.
  - replace (shift =? 63)%N with false by (symmetry; apply N.eqb_neq; lia).
    destruct (N_gt_dec (shift + 7) 64) as [Hgt|_]; [lia|].
    set (s := Z.of_N shift) in *.
    pose proof (Z_pow2_le_63 s ltac:(lia)) as [HP _].
    pose proof (Z_pow2_le_63 (s + 7) ltac:(lia)) as [_ HP7].
    rewrite Z_pow2_shift7 in HP7 by lia.
    replace (byte_to_Z x mod 128) with (byte_to_Z x - 128) by lia.
    assert (HbP : 0 <= (byte_to_Z x - 128) * 2 ^ s <= 127 * 2 ^ s) by nia.
    rewrite int64_small by lia.
    rewrite Z_lor_high by lia. reflexivity.
Qed.

End SignedSteps.

Section SignedSlices.

Open Scope Z_scope.

(** Round trip, from any state of the loop: [res] holds the bits below
    [shift], [num] is what is left to decode, [prev] is the byte before. *)
Lemma DecodeS64_loop_encode (n : nat) :
  forall (num res : Z) (shift : N) (prev : Z) (buf : byte) (rest : list byte),
    n = N.to_nat (71 - shift) ->
    (shift mod 7 = 0)%N -> (shift <= 63)%N ->
    0 <= res < 2 ^ Z.of_N shift -> 0 <= prev < 256 ->
    - 2 ^ (63 - Z.of_N shift) <= num < 2 ^ (63 - Z.of_N shift) ->
    (shift = 0%N \/
     ~ (num = 0 /\ prev mod 128 < 64) /\ ~ (num = -1 /\ 64 <= prev mod 128)) ->
    DecodeS64_loop bytesRead (EncodeS64 num ++ rest) res shift prev buf
    = (res + num * 2 ^ Z.of_N shift, None, rest).
Proof.
  induction n as [n IH] using lt_wf_ind.
  intros num res shift prev buf rest Hn Hmod Hle Hres Hprev Hnum Hnz.
  assert (Hm : 0 <= num mod 128 < 128) by (apply Z.mod_pos_bound; lia).
  assert (H63 : shift = 63%N -> num = 0 \/ num = -1).
  { intros ->. change (2 ^ (63 - Z.of_N 63)) with 1 in Hnum. lia. }
  destruct (Z_lt_le_dec num (-64)) as [Hlo|Hlo];
    [|destruct (Z_lt_le_dec num 64) as [Hhi|Hhi]].
  2: { (* the last byte *)
    rewrite EncodeS64_last by lia. cbn [app].
    rewrite (DecodeS64_loop_last bytesRead _ rest (byte_of_Z (num mod 128)));
      [| reflexivity | rewrite byte_to_of_Z by lia; lia | assumption..].
    cbv zeta. rewrite byte_to_of_Z by lia.
    destruct (N.eqb_spec shift 63) as [Hs|Hs];
      destruct (N.ltb_spec 0 shift) as [Hs0|Hs0];
      destruct (Z.eqb_spec (num mod 128) 0) as [Hb0|Hb0];
      destruct (Z.eqb_spec (num mod 128) 127) as [Hb1|Hb1];
      destruct (Z.ltb_spec (prev mod 128) 64) as [Hp|Hp];
      destruct (Z.leb_spec 64 (prev mod 128)) as [Hp'|Hp'];
      destruct (Z.ltb_spec (num mod 128) 64) as [Hb6|Hb6];
      cbn [andb orb negb]; try (exfalso; lia).
    all: f_equal; f_equal; f_equal; f_equal; lia. }
  all: (* a byte with the flag, and the rest *)
    rewrite EncodeS64_more by lia; cbn [app];
    rewrite (DecodeS64_loop_more bytesRead _ (EncodeS64 (num / 128) ++ rest)
               (byte_of_Z (num mod 128 + 128)));
      [| reflexivity | rewrite byte_to_of_Z by lia; lia | assumption..];
    rewrite byte_to_of_Z by lia;
    (destruct (N.eqb_spec shift 63) as [Hs|Hs]; [exfalso; lia|]);
    assert (Hs56 : (shift <= 56)%N) by lia;
    set (s := Z.of_N shift) in *;
    pose proof (Z_pow2_le_63 s ltac:(lia)) as [HP _];
    assert (HK : 2 ^ (63 - s) = 128 * 2 ^ (63 - (s + 7)))
      by (rewrite <- Z_pow2_shift7 by lia; f_equal; lia);
    assert (HmP : 0 <= (num mod 128) * 2 ^ s <= 127 * 2 ^ s) by nia;
    rewrite (IH (N.to_nat (71 - (shift + 7))));
      [ rewrite N2Z.inj_add; change (Z.of_N 7) with 7; fold s;
        rewrite Z_pow2_shift7 by lia; f_equal; f_equal;
        rewrite (Z.div_mod num 128) at 3 by lia; ring
      | lia | reflexivity | lia | lia
      | rewrite N2Z.inj_add; change (Z.of_N 7) with 7; fold s;
        rewrite Z_pow2_shift7 by lia; lia
      | lia
      | rewrite N2Z.inj_add; change (Z.of_N 7) with 7; fold s; lia
      | right; lia ].
Qed.

(** What is accepted is an encoding, from any state of the loop. *)
Lemma DecodeS64_loop_minimal (l : list byte) :
  forall (res : Z) (shift : N) (prev : Z) (buf : byte) (v : Z) (rest : list byte),
    (shift mod 7 = 0)%N -> (shift <= 63)%N ->
    0 <= res < 2 ^ Z.of_N shift -> 0 <= prev < 256 ->
    DecodeS64_loop bytesRead l res shift prev buf = (v, None, rest) ->
    exists num : Z,
      l = EncodeS64 num ++ rest /\ v = res + num * 2 ^ Z.of_N shift /\
      - 2 ^ (63 - Z.of_N shift) <= num < 2 ^ (63 - Z.of_N shift) /\
      (shift = 0%N \/
       ~ (num = 0 /\ prev mod 128 < 64) /\ ~ (num = -1 /\ 64 <= prev mod 128)).
Proof.
  induction l as [|x l IH]; intros res shift prev buf v rest Hmod Hle Hres Hprev Hdec.
  - rewrite DecodeS64_loop_equation_1 in Hdec. discriminate Hdec.
  - pose proof (byte_to_Z_range x) as Hb.
    destruct (Z_lt_le_dec (byte_to_Z x) 128) as [Hx|Hx].
    + (* the last byte *)
      rewrite (DecodeS64_loop_last bytesRead _ l x) in Hdec;
        [| reflexivity | assumption..].
      cbv zeta in Hdec.
      set (b := byte_to_Z x) in *.
      assert (H2 : shift <> 63%N -> 128 <= 2 ^ (63 - Z.of_N shift)).
      { intros Hs. change 128 with (2 ^ 7). apply Z.pow_le_mono_r; lia. }
      exists (if b <? 64 then b else b - 128).
      destruct (N.eqb_spec shift 63) as [Hs|Hs];
        [ rewrite Hs in *; change (2 ^ (63 - Z.of_N 63)) with 1 | apply H2 in Hs ];
        destruct (N.ltb_spec 0 shift) as [Hs0|Hs0];
        destruct (Z.eqb_spec b 0) as [Hb0|Hb0];
        destruct (Z.eqb_spec b 127) as [Hb1|Hb1];
        destruct (Z.ltb_spec (prev mod 128) 64) as [Hp|Hp];
        destruct (Z.leb_spec 64 (prev mod 128)) as [Hp'|Hp'];
        destruct (Z.ltb_spec b 64) as [Hb6|Hb6];
        cbn [andb orb negb] in Hdec; try discriminate Hdec; try (exfalso; lia).
      all: injection Hdec as Hv Hrest; rewrite EncodeS64_last by lia.
      all: replace ((b - 128) mod 128) with b by lia;
        try rewrite (Z.mod_small b 128) by lia;
        unfold b; rewrite byte_of_to_Z; fold b;
        subst rest; repeat split; try reflexivity; try lia.
    + (* a byte with the flag *)
      rewrite (DecodeS64_loop_more bytesRead _ l x) in Hdec;
        [| reflexivity | assumption..].
      destruct (N.eqb_spec shift 63) as [Hs|Hs]; [discriminate Hdec|].
      assert (Hs56 : (shift <= 56)%N) by lia.
      set (b := byte_to_Z x) in *. set (s := Z.of_N shift) in *.
      pose proof (Z_pow2_le_63 s ltac:(lia)) as [HP _].
      assert (HK : 2 ^ (63 - s) = 128 * 2 ^ (63 - (s + 7)))
        by (rewrite <- Z_pow2_shift7 by lia; f_equal; lia).
      assert (HbP : 0 <= (b - 128) * 2 ^ s <= 127 * 2 ^ s) by nia.
      apply IH in Hdec;
        [ | lia | lia
          | rewrite N2Z.inj_add; change (Z.of_N 7) with 7; fold s;
            rewrite Z_pow2_shift7 by lia; lia
          | lia ].
      destruct Hdec as (num & Hl & Hv & Hrange & Hnz).
      rewrite N2Z.inj_add in Hv, Hrange. change (Z.of_N 7) with 7 in Hv, Hrange.
      fold s in Hv, Hrange. rewrite Z_pow2_shift7 in Hv by lia.
      destruct Hnz as [Hnz|Hnz]; [lia|].
      exists (b - 128 + 128 * num).
      assert (Hdiv : (b - 128 + 128 * num) / 128 = num) by lia.
      assert (Hmod' : (b - 128 + 128 * num) mod 128 = b - 128) by lia.
      rewrite EncodeS64_more by lia.
      rewrite Hdiv, Hmod'. replace (b - 128 + 128) with b by lia.
      unfold b at 1. rewrite byte_of_to_Z.
      repeat split.
      * cbn [app]. f_equal. exact Hl.
      * rewrite Hv. ring.
      * lia.
      * lia.
      * right. lia.
Qed.

End SignedSlices.

Lemma DecodeS64_encode (v : Z) (rest : list byte) :
  (- 2 ^ 63 <= v < 2 ^ 63)%Z ->
  DecodeS64 bytesRead (EncodeS64 v ++ rest) = (v, None, rest).
Proof.
  intros Hv. unfold DecodeS64.
  rewrite (DecodeS64_loop_encode (N.to_nat (71 - 0)));
    [ f_equal; f_equal; change (2 ^ Z.of_N 0)%Z with 1%Z; lia
    | reflexivity | reflexivity | lia | change (2 ^ Z.of_N 0)%Z with 1%Z; lia
    | lia | exact Hv | left; reflexivity ].
Qed.

Lemma DecodeS64_minimal (l : list byte) (v : Z) (rest : list byte) :
  DecodeS64 bytesRead l = (v, None, rest) -> l = EncodeS64 v ++ rest.
Proof.
  unfold DecodeS64. intros Hdec.
  apply DecodeS64_loop_minimal in Hdec;
    [ | reflexivity | lia | change (2 ^ Z.of_N 0)%Z with 1%Z; lia | lia ].
  destruct Hdec as (num & Hl & Hv & _).
  change (2 ^ Z.of_N 0)%Z with 1%Z in Hv.
  replace v with num by lia. exact Hl.
Qed.

(** * The length of an encoding *)

Lemma EncodeU32_length_le (k : nat) :
  forall v : N, (v < 128 ^ N.of_nat (S k))%N ->
                (1 <= length (EncodeU32 v) <= S k)%nat.
Proof.
  induction k as [|k IH]; intros v Hv.
  - change (128 ^ N.of_nat 1)%N with 128%N in Hv.
    rewrite EncodeU32_last by exact Hv. cbn. lia.
  - destruct (N.lt_ge_cases v 128) as [Hlt|Hge].
    + rewrite EncodeU32_last by exact Hlt. cbn. lia.
    + rewrite EncodeU32_more by exact Hge. cbn [length].
      assert (Hq : (v / 128 < 128 ^ N.of_nat (S k))%N).
      { apply N.Div0.div_lt_upper_bound.
        rewrite <- N.pow_succ_r', <- Nat2N.inj_succ. exact Hv. }
      specialize (IH _ Hq). lia.
Qed.

Lemma EncodeU32_length_gt (k : nat) :
  forall v : N, (128 ^ N.of_nat k <= v)%N -> (k < length (EncodeU32 v))%nat.
Proof.
  induction k as [|k IH]; intros v Hv.
  - destruct (N.lt_ge_cases v 128) as [Hlt|Hge].
    + rewrite EncodeU32_last by exact Hlt. cbn. lia.
    + rewrite EncodeU32_more by exact Hge. cbn. lia.
  - rewrite Nat2N.inj_succ, N.pow_succ_r' in Hv.
    assert (HP : (0 < 128 ^ N.of_nat k)%N)
      by (apply N.neq_0_lt_0, N.pow_nonzero; lia).
    rewrite EncodeU32_more by lia. cbn [length].
    assert (Hq : (128 ^ N.of_nat k <= v / 128)%N)
      by (apply N.div_le_lower_bound; lia).
    specialize (IH _ Hq). lia.
Qed.

Lemma EncodeU32_last_byte (k : nat) :
  forall v : N, (128 ^ N.of_nat k <= v < 128 ^ N.of_nat (S k))%N ->
                nth_error (EncodeU32 v) k = Some (byte_of_N (v / 128 ^ N.of_nat k)).
Proof.
  induction k as [|k IH]; intros v Hv.
  - change (128 ^ N.of_nat 1)%N with 128%N in Hv.
    rewrite EncodeU32_last by lia. cbn [nth_error].
    change (128 ^ N.of_nat 0)%N with 1%N. rewrite N.div_1_r. reflexivity.
  - rewrite !Nat2N.inj_succ, !N.pow_succ_r' in Hv.
    assert (HP : (0 < 128 ^ N.of_nat k)%N)
      by (apply N.neq_0_lt_0, N.pow_nonzero; lia).
    rewrite EncodeU32_more by lia. cbn [nth_error].
    rewrite IH.
    + rewrite Nat2N.inj_succ, N.pow_succ_r'.
      rewrite N.Div0.div_div. reflexivity.
    + split.
      * apply N.div_le_lower_bound; lia.
      * apply N.Div0.div_lt_upper_bound.
        rewrite Nat2N.inj_succ, N.pow_succ_r'. lia.
Qed.

Lemma EncodeS64_length_le (k : nat) :
  forall v : Z, (- (64 * 128 ^ Z.of_nat k) <= v < 64 * 128 ^ Z.of_nat k)%Z ->
                (1 <= length (EncodeS64 v) <= S k)%nat.
Proof.
  induction k as [|k IH]; intros v Hv.
  - change (128 ^ Z.of_nat 0)%Z with 1%Z in Hv.
    rewrite EncodeS64_last by lia. cbn. lia.
  - destruct (Z_lt_le_dec v (-64)) as [Hlo|Hlo];
      [|destruct (Z_lt_le_dec v 64) as [Hhi|Hhi]].
    2: { rewrite EncodeS64_last by lia. cbn. lia. }
    all: rewrite EncodeS64_more by lia; cbn [length];
      rewrite Nat2Z.inj_succ, Z.pow_succ_r in Hv by lia;
      assert (Hq : (- (64 * 128 ^ Z.of_nat k) <= v / 128 < 64 * 128 ^ Z.of_nat k)%Z)
        by lia;
      specialize (IH _ Hq); lia.
Qed.

(** * What the decoders ask of a reader *)

Lemma flag_N_Z (x : byte) :
  (Z.land (byte_to_Z x) 0x80 =? 0)%Z = (N.land (byte_to_N x) 0x80 =? 0)%N.
Proof. destruct x; reflexivity. Qed.

Section Reads.

Context {R : Type} (Read : reader R).

Lemma reads_ok_stop {V : Type} (zero v : V) (err : option error) (r : R)
      (log0 : list answer) (b : byte) (e : option error) :
  (forall e', e = Some e' -> v = zero /\ err = Some (passed_on e')) ->
  reads_ok zero log0 (v, err, (r, log0 ++ [(b, e)])).
Proof.
  intros H. exists [], (b, e). split; [reflexivity|]. split; [apply Forall_nil|].
  cbn [snd fst]. exact H.
Qed.

Lemma reads_ok_more {V : Type} (zero : V) (log0 : list answer) (a : answer)
      (out : V * option error * (R * list answer)) :
  goes_on a -> reads_ok zero (log0 ++ [a]) out -> reads_ok zero log0 out.
Proof.
  intros Ha (front & last & Hlog & Hfront & Hlast).
  exists (a :: front), last. split; [|split].
  - rewrite Hlog, <- app_assoc. reflexivity.
  - apply Forall_cons; assumption.
  - exact Hlast.
Qed.

Lemma DecodeU_loop_reads (W lim : N) (n : nat) :
  forall (r : R) (log0 : list answer) (res shift : N) (buf : byte),
    n = N.to_nat (W + 7 - shift) ->
    reads_ok 0%N log0 (DecodeU_loop (logRead Read) W lim (r, log0) res shift buf).
Proof.
  induction n as [n IH] using lt_wf_ind. intros r log0 res shift buf Hn.
  rewrite DecodeU_loop_equation_1. unfold logRead at 1. cbn [fst snd].
  destruct (Read r buf) as [[b e] r']. destruct e as [e|].
  - destruct e; apply reads_ok_stop; intros e' [= <-]; split; reflexivity.
  - cbv zeta. destruct (N.land (byte_to_N b) 128 =? 0)%N eqn:Hflag.
    + destruct ((W <? shift + 7)%N && (lim <? byte_to_N b)%N);
        [|destruct ((7 <? shift + 7)%N && (byte_to_N b =? 0)%N)];
        apply reads_ok_stop; intros e' [=].
    + destruct (N_gt_dec (shift + 7) W) as [Hgt|Hle].
      * apply reads_ok_stop; intros e' [=].
      * apply (reads_ok_more _ _ (b, None)).
        -- split; [reflexivity|]. unfold has_flag. cbn [fst]. rewrite Hflag. reflexivity.
        -- apply (IH (N.to_nat (W + 7 - (shift + 7)))); [lia | reflexivity].
Qed.

Lemma DecodeS64_loop_reads (n : nat) :
  forall (r : R) (log0 : list answer) (res : Z) (shift : N) (prev : Z) (buf : byte),
    n = N.to_nat (71 - shift) ->
    reads_ok 0%Z log0 (DecodeS64_loop (logRead Read) (r, log0) res shift prev buf).
Proof.
  induction n as [n IH] using lt_wf_ind. intros r log0 res shift prev buf Hn.
  rewrite DecodeS64_loop_equation_1. unfold logRead at 1. cbn [fst snd].
  destruct (Read r buf) as [[b e] r']. destruct e as [e|].
  - destruct e; apply reads_ok_stop; intros e' [= <-]; split; reflexivity.
  - cbv zeta. destruct (Z.land (byte_to_Z b) 128 =? 0)%Z eqn:Hflag.
    + repeat match goal with
             | |- context [if ?c then _ else _] => destruct c
             end; apply reads_ok_stop; intros e' [=].
    + destruct (N_gt_dec (shift + 7) 64) as [Hgt|Hle].
      * apply reads_ok_stop; intros e' [=].
      * apply (reads_ok_more _ _ (b, None)).
        -- split; [reflexivity|]. unfold has_flag. cbn [fst].
           rewrite <- flag_N_Z, Hflag. reflexivity.
        -- apply (IH (N.to_nat (71 - (shift + 7)))); [lia | reflexivity].
Qed.

(** Logging changes neither the result nor the reader. *)
Lemma DecodeU_loop_logged (W lim : N) (n : nat) :
  forall (r : R) (log0 : list answer) (res shift : N) (buf : byte),
    n = N.to_nat (W + 7 - shift) ->
    fst (DecodeU_loop (logRead Read) W lim (r, log0) res shift buf)
    = fst (DecodeU_loop Read W lim r res shift buf) /\
    fst (snd (DecodeU_loop (logRead Read) W lim (r, log0) res shift buf))
    = snd (DecodeU_loop Read W lim r res shift buf).
Proof.
  induction n as [n IH] using lt_wf_ind. intros r log0 res shift buf Hn.
  rewrite (DecodeU_loop_equation_1 (logRead Read)), (DecodeU_loop_equation_1 Read).
  unfold logRead at 1 3. cbn [fst snd].
  destruct (Read r buf) as [[b e] r']. destruct e as [e|].
  - destruct e; split; reflexivity.
  - cbv zeta. destruct (N.land (byte_to_N b) 128 =? 0)%N.
    + destruct ((W <? shift + 7)%N && (lim <? byte_to_N b)%N);
        [|destruct ((7 <? shift + 7)%N && (byte_to_N b =? 0)%N)];
        split; reflexivity.
    + destruct (N_gt_dec (shift + 7) W) as [Hgt|Hle]; [split; reflexivity|].
      apply (IH (N.to_nat (W + 7 - (shift + 7)))); [lia | reflexivity].
Qed.

Lemma DecodeS64_loop_logged (n : nat) :
  forall (r : R) (log0 : list answer) (res : Z) (shift : N) (prev : Z) (buf : byte),
    n = N.to_nat (71 - shift) ->
    fst (DecodeS64_loop (logRead Read) (r, log0) res shift prev buf)
    = fst (DecodeS64_loop Read r res shift prev buf) /\
    fst (snd (DecodeS64_loop (logRead Read) (r, log0) res shift prev buf))
    = snd (DecodeS64_loop Read r res shift prev buf).
Proof.
  induction n as [n IH] using lt_wf_ind. intros r log0 res shift prev buf Hn.
  rewrite (DecodeS64_loop_equation_1 (logRead Read)), (DecodeS64_loop_equation_1 Read).
  unfold logRead at 1 3. cbn [fst snd].
  destruct (Read r buf) as [[b e] r']. destruct e as [e|].
  - destruct e; split; reflexivity.
  - cbv zeta. destruct (Z.land (byte_to_Z b) 128 =? 0)%Z.
    + repeat match goal with
             | |- context [if ?c then _ else _] => destruct c
             end; split; reflexivity.
    + destruct (N_gt_dec (shift + 7) 64) as [Hgt|Hle]; [split; reflexivity|].
      apply (IH (N.to_nat (71 - (shift + 7)))); [lia | reflexivity].
Qed.

(** An error in the log is the last answer of the log, and decides the
    result. *)
Lemma reads_ok_error {V : Type} (zero : V)
      (out : V * option error * (R * list answer)) (i : nat) (b : byte) (e : error) :
  reads_ok zero [] out ->
  nth_error (snd (snd out)) i = Some (b, Some e) ->
  fst (fst out) = zero /\ snd (fst out) = Some (passed_on e) /\
  length (snd (snd out)) = S i /\
  forall j a, (j < i)%nat -> nth_error (snd (snd out)) j = Some a -> goes_on a.
Proof.
  intros (front & last & Hlog & Hfront & Hlast) Hi.
  cbn [app] in Hlog. rewrite Hlog in *.
  assert (Hlen : i = length front).
  { destruct (Nat.lt_trichotomy i (length front)) as [Hlt|[Heq|Hgt]].
    - rewrite nth_error_app1 in Hi by exact Hlt.
      rewrite Forall_forall in Hfront. apply nth_error_In, Hfront in Hi.
      destruct Hi as [Hi _]. discriminate Hi.
    - exact Heq.
    - rewrite nth_error_app2 in Hi by lia.
      destruct (i - length front)%nat as [|[|k]] eqn:Hk; [lia | |]; discriminate Hi. }
  subst i. rewrite nth_error_app2, Nat.sub_diag in Hi by lia.
  injection Hi as Hi. subst last.
  destruct (Hlast e eq_refl) as [Hv He].
  split; [exact Hv|]. split; [exact He|]. split.
  - rewrite length_app. cbn. lia.
  - intros j a Hj Ha. apply (proj1 (Forall_forall goes_on front) Hfront).
    rewrite nth_error_app1 in Ha by exact Hj. apply nth_error_In in Ha. exact Ha.
Qed.

End Reads.

(** * The properties of the specification *)

(** ** Round trips *)

(** C4.  For every uint32 value [v], [DecodeU32] reading from a source that
    supplies exactly the bytes [EncodeU32 v] succeeds and returns [v] (and
    has read all of them). *)
Theorem roundtrip_U32 (v : N) :
  (v < 2 ^ 32)%N -> DecodeU32 bytesRead (EncodeU32 v) = (v, None, []).
Proof.
  intros Hv. rewrite <- (app_nil_r (EncodeU32 v)). apply DecodeU32_encode. exact Hv.
Qed.

Lemma roundtrip_U32_witness :
  DecodeU32 bytesRead (EncodeU32 4294967295) = (4294967295%N, None, []).
Proof. apply roundtrip_U32. reflexivity. Defined.

(** C3.  For every uint64 value [v], [DecodeU64] reading from a source that
    supplies exactly the bytes [EncodeU64 v] succeeds and returns [v]; when
    [v] is 2^63 or more the encoding has ten bytes and the tenth is 1. *)
Theorem roundtrip_U64 (v : N) :
  (v < 2 ^ 64)%N ->
  DecodeU64 bytesRead (EncodeU64 v) = (v, None, []) /\
  ((2 ^ 63 <= v)%N ->
   length (EncodeU64 v) = 10%nat /\ nth_error (EncodeU64 v) 9 = Some x01).
Proof.
  intros Hv. split.
  - rewrite <- (app_nil_r (EncodeU64 v)). apply DecodeU64_encode. exact Hv.
  - intros Hge. rewrite EncodeU64_U32.
    change (2 ^ 63)%N with (128 ^ N.of_nat 9)%N in Hge.
    assert (Hlt : (v < 128 ^ N.of_nat 10)%N).
    { apply N.lt_trans with (m := (2 ^ 64)%N); [exact Hv | reflexivity]. }
    pose proof (EncodeU32_length_le 9 v Hlt) as Hle.
    pose proof (EncodeU32_length_gt 9 v Hge) as Hgt.
    split; [lia|].
    rewrite (EncodeU32_last_byte 9 v (conj Hge Hlt)).
    change (128 ^ N.of_nat 9)%N with 9223372036854775808%N in *.
    change (2 ^ 64)%N with 18446744073709551616%N in Hv.
    replace (v / 9223372036854775808)%N with 1%N by lia. reflexivity.
Qed.

Lemma roundtrip_U64_witness :
  DecodeU64 bytesRead (EncodeU64 (2 ^ 63)) = ((2 ^ 63)%N, None, []) /\
  length (EncodeU64 (2 ^ 63)) = 10%nat /\
  nth_error (EncodeU64 (2 ^ 63)) 9 = Some x01.
Proof.
  destruct (roundtrip_U64 (2 ^ 63)) as [Hdec Hlen]; [reflexivity|].
  split; [exact Hdec|]. apply Hlen. vm_compute. discriminate.
Defined.

(** C2.  For every int64 value [v], [DecodeS64] reading from a source that
    supplies exactly the bytes [EncodeS64 v] succeeds and returns [v]. *)
Theorem roundtrip_S64 (v : Z) :
  (- 2 ^ 63 <= v < 2 ^ 63)%Z -> DecodeS64 bytesRead (EncodeS64 v) = (v, None, []).
Proof.
  intros Hv. rewrite <- (app_nil_r (EncodeS64 v)). apply DecodeS64_encode. exact Hv.
Qed.

Lemma roundtrip_S64_witness :
  DecodeS64 bytesRead (EncodeS64 (- 2 ^ 63)) = ((- 2 ^ 63)%Z, None, []).
Proof. apply roundtrip_S64. split; vm_compute; [discriminate | reflexivity]. Defined.

(** ** Minimality *)

(** C1.  For every byte sequence and each of the three decoders: when the
    decoder succeeds with value [v] and leaves [rest] unread, the bytes it has
    read are [EncodeU32 v], [EncodeU64 v], [EncodeS64 v] respectively.  So no
    sequence longer than the encoding of its value is accepted. *)
Theorem decoders_accept_only_encodings (l rest : list byte) :
  (forall v, DecodeU32 bytesRead l = (v, None, rest) -> l = EncodeU32 v ++ rest) /\
  (forall v, DecodeU64 bytesRead l = (v, None, rest) -> l = EncodeU64 v ++ rest) /\
  (forall v, DecodeS64 bytesRead l = (v, None, rest) -> l = EncodeS64 v ++ rest).
Proof.
  split; [|split]; intros v.
  - apply DecodeU32_minimal.
  - apply DecodeU64_minimal.
  - apply DecodeS64_minimal.
Qed.

Lemma decoders_accept_only_encodings_witness :
  [xac; x02; x07] = EncodeU32 300 ++ [x07] /\
  [xac; x02; x07] = EncodeU64 300 ++ [x07] /\
  [xac; x02; x07] = EncodeS64 300 ++ [x07].
Proof.
  destruct (decoders_accept_only_encodings [xac; x02; x07] [x07]) as (H32 & H64 & HS).
  split; [|split].
  - apply H32. reflexivity.
  - apply H64. reflexivity.
  - apply HS. reflexivity.
Defined.

(** ** Lengths *)

(** C10.  Each encoder answers at least one byte; [EncodeU32] at most five,
    [EncodeU64] and [EncodeS64] at most ten.  Five and ten are reached, so the
    capacities 4 and 8 the slices are made with bound nothing. *)
Theorem encoders_length_bounds :
  (forall v, (v < 2 ^ 32)%N -> 1 <= length (EncodeU32 v) <= 5) /\
  (forall v, (v < 2 ^ 64)%N -> 1 <= length (EncodeU64 v) <= 10) /\
  (forall v, (- 2 ^ 63 <= v < 2 ^ 63)%Z -> 1 <= length (EncodeS64 v) <= 10) /\
  length (EncodeU32 (2 ^ 32 - 1)) = 5 /\
  length (EncodeU64 (2 ^ 64 - 1)) = 10 /\
  length (EncodeS64 (- 2 ^ 63)) = 10.
Proof.
  split; [|split; [|split]].
  - intros v Hv. apply (EncodeU32_length_le 4).
    apply N.lt_trans with (m := (2 ^ 32)%N); [exact Hv | reflexivity].
  - intros v Hv. rewrite EncodeU64_U32. apply (EncodeU32_length_le 9).
    apply N.lt_trans with (m := (2 ^ 64)%N); [exact Hv | reflexivity].
  - intros v Hv. apply (EncodeS64_length_le 9).
    change (64 * 128 ^ Z.of_nat 9)%Z with (64 * 2 ^ 63)%Z. lia.
  - repeat split; reflexivity.
Qed.

Lemma encoders_length_bounds_witness :
  1 <= length (EncodeU32 300) <= 5 /\
  1 <= length (EncodeU64 300) <= 10 /\
  1 <= length (EncodeS64 (-300)) <= 10.
Proof.
  destruct encoders_length_bounds as (H32 & H64 & HS & _).
  split; [|split].
  - apply H32. reflexivity.
  - apply H64. reflexivity.
  - apply HS. split; vm_compute; [discriminate | reflexivity].
Defined.

(** ** The thresholds *)

Lemma payload_clear (x : byte) :
  N.land (byte_to_N x) 0x80 = 0%N -> N.land (byte_to_N x) 0x7F = byte_to_N x.
Proof. destruct x; intros H; solve [reflexivity | discriminate H]. Qed.

(** C6.  [DecodeU32] fails with [ErrOverflow] when it reads a byte without
    the continuation flag, [shift] (after the byte is counted) is above 32 and
    the payload of the byte is above 0b1111.  So does decoding
    0xFF 0xFF 0xFF 0xFF 0x10. *)
Theorem DecodeU32_overflow_on_last_byte :
  (forall (R : Type) (Read : reader R) (r r' : R) (res shift : N) (buf x : byte),
      Read r buf = (x, None, r') ->
      N.land (byte_to_N x) 0x80 = 0%N ->
      (32 < shift + 7)%N ->
      (0xF < N.land (byte_to_N x) 0x7F)%N ->
      DecodeU32_loop Read r res shift buf = (0%N, Some ErrOverflow, r')) /\
  DecodeU32 bytesRead [xff; xff; xff; xff; x10] = (0%N, Some ErrOverflow, []).
Proof.
  split; [|reflexivity].
  intros R Read r r' res shift buf x HRead Hflag Hshift Hpay.
  rewrite DecodeU32_loop_equation_1, HRead. cbv zeta.
  rewrite payload_clear in Hpay by exact Hflag.
  rewrite Hflag. cbn [N.eqb].
  apply N.ltb_lt in Hshift, Hpay. rewrite Hshift, Hpay. reflexivity.
Qed.

Lemma DecodeU32_overflow_on_last_byte_witness :
  DecodeU32_loop bytesRead [x10] 0xFFFFFFF 28 xff = (0%N, Some ErrOverflow, []).
Proof.
  apply (proj1 DecodeU32_overflow_on_last_byte _ bytesRead [x10] [] _ 28%N xff x10);
    reflexivity.
Defined.

(** C7.  [DecodeU64] fails with [ErrOverflow] when it reads a byte with the
    continuation flag and [shift] (after the byte is counted) is above 64; and
    when it reads a byte without the flag, [shift] is above 64 and the payload
    is above 1.  So when ten bytes are accepted the tenth is 1: it gives
    bit 63 and nothing else. *)
Theorem DecodeU64_overflow_thresholds :
  (forall (R : Type) (Read : reader R) (r r' : R) (res shift : N) (buf x : byte),
      Read r buf = (x, None, r') ->
      N.land (byte_to_N x) 0x80 <> 0%N ->
      (64 < shift + 7)%N ->
      DecodeU64_loop Read r res shift buf = (0%N, Some ErrOverflow, r')) /\
  (forall (R : Type) (Read : reader R) (r r' : R) (res shift : N) (buf x : byte),
      Read r buf = (x, None, r') ->
      N.land (byte_to_N x) 0x80 = 0%N ->
      (64 < shift + 7)%N ->
      (1 < N.land (byte_to_N x) 0x7F)%N ->
      DecodeU64_loop Read r res shift buf = (0%N, Some ErrOverflow, r')) /\
  (forall (read rest : list byte) (v : N) (x : byte),
      DecodeU64 bytesRead (read ++ rest) = (v, None, rest) ->
      nth_error read 9 = Some x ->
      x = x01 /\ length read = 10).
Proof.
  split; [|split].
  - intros R Read r r' res shift buf x HRead Hflag Hshift.
    rewrite DecodeU64_loop_equation_1, HRead. cbv zeta.
    apply N.eqb_neq in Hflag. rewrite Hflag.
    destruct (N_gt_dec (shift + 7) 64) as [_|Hle]; [reflexivity | lia].
  - intros R Read r r' res shift buf x HRead Hflag Hshift Hpay.
    rewrite DecodeU64_loop_equation_1, HRead. cbv zeta.
    rewrite payload_clear in Hpay by exact Hflag.
    rewrite Hflag. cbn [N.eqb].
    apply N.ltb_lt in Hshift, Hpay. rewrite Hshift, Hpay. reflexivity.
  - intros read rest v x Hdec Hx.
    unfold DecodeU64 in Hdec. rewrite DecodeU64_loop_generic in Hdec.
    apply (DecodeU_loop_minimal 64 1 lim_fits_64) in Hdec;
      [| reflexivity | lia | rewrite N.pow_0_r; lia].
    destruct Hdec as (num & Hl & _ & _ & Hfit).
    apply app_inv_tail in Hl. subst read.
    rewrite N.pow_0_r, N.mul_1_r in Hfit.
    assert (Hlen : 9 < length (EncodeU32 num)).
    { apply nth_error_Some. rewrite Hx. discriminate. }
    assert (Hge : (128 ^ N.of_nat 9 <= num)%N).
    { apply N.le_ngt. intros Hlt.
      pose proof (EncodeU32_length_le 8 num Hlt). lia. }
    assert (Hlt : (num < 128 ^ N.of_nat 10)%N).
    { apply N.lt_trans with (m := (2 ^ 64)%N); [exact Hfit | reflexivity]. }
    pose proof (EncodeU32_length_le 9 num Hlt) as Hle.
    split; [|lia].
    rewrite (EncodeU32_last_byte 9 num (conj Hge Hlt)) in Hx.
    change (128 ^ N.of_nat 9)%N with 9223372036854775808%N in *.
    change (2 ^ 64)%N with 18446744073709551616%N in Hfit.
    replace (num / 9223372036854775808)%N with 1%N in Hx by lia.
    injection Hx as <-. reflexivity.
Qed.

Lemma DecodeU64_overflow_thresholds_witness :
  DecodeU64_loop bytesRead [x80] 0 63 xff = (0%N, Some ErrOverflow, []) /\
  DecodeU64_loop bytesRead [x02] 0 63 xff = (0%N, Some ErrOverflow, []) /\
  (x01 = x01 /\ length (EncodeU64 (2 ^ 64 - 1)) = 10).
Proof.
  destruct DecodeU64_overflow_thresholds as (Hmore & Hlast & Hten).
  split; [|split].
  - apply (Hmore _ bytesRead [x80] [] _ 63%N xff x80);
      [reflexivity | discriminate | reflexivity].
  - apply (Hlast _ bytesRead [x02] [] _ 63%N xff x02); reflexivity.
  - apply (Hten (EncodeU64 (2 ^ 64 - 1)) [] (2 ^ 64 - 1)%N x01); reflexivity.
Defined.

(** C8.  [DecodeS64] fails with [ErrNonMinimal] when it reads a byte without
    the continuation flag, [shift] (after the byte is counted) is above 7,
    and either the byte is 0 and bit 0x40 of the byte before is clear, or the
    byte is 0x7F and bit 0x40 of the byte before is set.  So does decoding
    0xFF 0x7F. *)
Theorem DecodeS64_overlong_is_NonMinimal :
  (forall (R : Type) (Read : reader R) (r r' : R) (res : Z) (shift : N)
          (prev : Z) (buf x : byte),
      Read r buf = (x, None, r') ->
      Z.land (byte_to_Z x) 0x80 = 0%Z ->
      (7 < shift + 7)%N ->
      (byte_to_Z x = 0%Z /\ Z.land prev 0x40 = 0%Z) \/
      (byte_to_Z x = 0x7F%Z /\ (0 < Z.land prev 0x40)%Z) ->
      DecodeS64_loop Read r res shift prev buf = (0%Z, Some ErrNonMinimal, r')) /\
  DecodeS64 bytesRead [xff; x7f] = (0%Z, Some ErrNonMinimal, []).
Proof.
  split; [|reflexivity].
  intros R Read r r' res shift prev buf x HRead Hflag Hshift Hlong.
  rewrite DecodeS64_loop_equation_1, HRead. cbv zeta.
  rewrite Hflag. cbn [Z.eqb].
  apply N.ltb_lt in Hshift. rewrite Hshift.
  destruct Hlong as [[Hb Hp]|[Hb Hp]]; rewrite Hb.
  - rewrite Hp. cbn [Z.eqb negb andb orb]. rewrite andb_false_r. reflexivity.
  - apply Z.ltb_lt in Hp. rewrite Hp.
    cbn [Z.eqb Pos.eqb negb andb orb]. rewrite andb_false_r. reflexivity.
Qed.

Lemma DecodeS64_overlong_is_NonMinimal_witness :
  DecodeS64_loop bytesRead [x7f] 0x7F 7 0xFF xff = (0%Z, Some ErrNonMinimal, []).
Proof.
  apply (proj1 DecodeS64_overlong_is_NonMinimal _ bytesRead [x7f] [] _ 7%N _ xff x7f);
    [reflexivity | reflexivity | reflexivity | right; split; reflexivity].
Defined.

(** ** Errors of the reader *)

Section ReaderErrors.

Context {R : Type} (Read : reader R).

Lemma DecodeU32_reads (r : R) : reads_ok 0%N [] (DecodeU32 (logRead Read) (r, [])).
Proof.
  unfold DecodeU32. rewrite DecodeU32_loop_generic.
  apply (DecodeU_loop_reads Read 32 0xF (N.to_nat (32 + 7 - 0))). reflexivity.
Qed.

Lemma DecodeU64_reads (r : R) : reads_ok 0%N [] (DecodeU64 (logRead Read) (r, [])).
Proof.
  unfold DecodeU64. rewrite DecodeU64_loop_generic.
  apply (DecodeU_loop_reads Read 64 1 (N.to_nat (64 + 7 - 0))). reflexivity.
Qed.

Lemma DecodeS64_reads (r : R) : reads_ok 0%Z [] (DecodeS64 (logRead Read) (r, [])).
Proof.
  unfold DecodeS64.
  apply (DecodeS64_loop_reads Read (N.to_nat (71 - 0))). reflexivity.
Qed.

Lemma DecodeU32_logged (r : R) :
  fst (DecodeU32 (logRead Read) (r, [])) = fst (DecodeU32 Read r).
Proof.
  unfold DecodeU32. rewrite !DecodeU32_loop_generic.
  apply (DecodeU_loop_logged Read 32 0xF (N.to_nat (32 + 7 - 0))). reflexivity.
Qed.

Lemma DecodeU64_logged (r : R) :
  fst (DecodeU64 (logRead Read) (r, [])) = fst (DecodeU64 Read r).
Proof.
  unfold DecodeU64. rewrite !DecodeU64_loop_generic.
  apply (DecodeU_loop_logged Read 64 1 (N.to_nat (64 + 7 - 0))). reflexivity.
Qed.

Lemma DecodeS64_logged (r : R) :
  fst (DecodeS64 (logRead Read) (r, [])) = fst (DecodeS64 Read r).
Proof.
  unfold DecodeS64.
  apply (DecodeS64_loop_logged Read (N.to_nat (71 - 0))). reflexivity.
Qed.

(** The result of a run whose log has the error [e] at the call [i]. *)
Lemma stopped_on_error {V : Type} (zero : V)
      (out : V * option error * (R * list answer)) (i : nat) (b : byte) (e : error) :
  reads_ok zero [] out ->
  nth_error (log_of out) i = Some (b, Some e) ->
  fst out = (zero, Some (passed_on e)) /\
  length (log_of out) = S i /\
  forall j a, j < i -> nth_error (log_of out) j = Some a -> goes_on a.
Proof.
  intros Hok Hi.
  destruct (reads_ok_error zero out i b e Hok Hi) as (Hv & He & Hlen & Hfront).
  split; [|split; assumption].
  rewrite (surjective_pairing (fst out)), Hv, He. reflexivity.
Qed.

End ReaderErrors.

(** C5.  For each of the three decoders and every reader: when a call of
    [Read] that the decoder makes answers [io.EOF] (the call number [i],
    counted from 0, of the log of the run), the decoder answers 0 and
    [ErrNonMinimal]; it has asked nothing after that call, and every call
    before it has answered a byte with the continuation flag. *)
Theorem end_of_input_is_NonMinimal
        (R : Type) (Read : reader R) (r : R) (i : nat) (b : byte) :
  (nth_error (log_of (DecodeU32 (logRead Read) (r, []))) i = Some (b, Some io_EOF) ->
   fst (DecodeU32 Read r) = (0%N, Some ErrNonMinimal) /\
   length (log_of (DecodeU32 (logRead Read) (r, []))) = S i /\
   forall j a, j < i ->
     nth_error (log_of (DecodeU32 (logRead Read) (r, []))) j = Some a -> goes_on a) /\
  (nth_error (log_of (DecodeU64 (logRead Read) (r, []))) i = Some (b, Some io_EOF) ->
   fst (DecodeU64 Read r) = (0%N, Some ErrNonMinimal) /\
   length (log_of (DecodeU64 (logRead Read) (r, []))) = S i /\
   forall j a, j < i ->
     nth_error (log_of (DecodeU64 (logRead Read) (r, []))) j = Some a -> goes_on a) /\
  (nth_error (log_of (DecodeS64 (logRead Read) (r, []))) i = Some (b, Some io_EOF) ->
   fst (DecodeS64 Read r) = (0%Z, Some ErrNonMinimal) /\
   length (log_of (DecodeS64 (logRead Read) (r, []))) = S i /\
   forall j a, j < i ->
     nth_error (log_of (DecodeS64 (logRead Read) (r, []))) j = Some a -> goes_on a).
Proof.
  split; [|split]; intros Hi.
  - rewrite <- DecodeU32_logged.
    exact (stopped_on_error 0%N _ i b io_EOF (DecodeU32_reads Read r) Hi).
  - rewrite <- DecodeU64_logged.
    exact (stopped_on_error 0%N _ i b io_EOF (DecodeU64_reads Read r) Hi).
  - rewrite <- DecodeS64_logged.
    exact (stopped_on_error 0%Z _ i b io_EOF (DecodeS64_reads Read r) Hi).
Qed.

Lemma end_of_input_is_NonMinimal_witness :
  fst (DecodeU32 bytesRead [x80; xff]) = (0%N, Some ErrNonMinimal) /\
  fst (DecodeU64 bytesRead [x80; xff]) = (0%N, Some ErrNonMinimal) /\
  fst (DecodeS64 bytesRead [x80; xff]) = (0%Z, Some ErrNonMinimal).
Proof.
  destruct (end_of_input_is_NonMinimal _ bytesRead [x80; xff] 2 xff) as (H32 & H64 & HS).
  split; [|split].
  - apply H32. reflexivity.
  - apply H64. reflexivity.
  - apply HS. reflexivity.
Defined.

(** The decoders stop at the fifth, resp. tenth, byte with the flag: a source
    that would answer [io.EOF] after that is not asked. *)
Example flagged_bytes_only :
  DecodeU32 (logRead bytesRead) ([x80; x80; x80; x80; x80], [])
  = (0%N, Some ErrOverflow,
     ([], [(x80, None); (x80, None); (x80, None); (x80, None); (x80, None)])).
Proof. reflexivity. Qed.

(** C9.  For each of the three decoders and every reader: when a call of
    [Read] that the decoder makes answers an error [e] other than [io.EOF]
    (the call number [i], counted from 0, of the log of the run), the decoder
    answers 0 and that same [e], and it has asked nothing after that call. *)
Theorem source_failure_is_passed_on
        (R : Type) (Read : reader R) (r : R) (i : nat) (b : byte) (e : error) :
  e <> io_EOF ->
  (nth_error (log_of (DecodeU32 (logRead Read) (r, []))) i = Some (b, Some e) ->
   fst (DecodeU32 Read r) = (0%N, Some e) /\
   length (log_of (DecodeU32 (logRead Read) (r, []))) = S i) /\
  (nth_error (log_of (DecodeU64 (logRead Read) (r, []))) i = Some (b, Some e) ->
   fst (DecodeU64 Read r) = (0%N, Some e) /\
   length (log_of (DecodeU64 (logRead Read) (r, []))) = S i) /\
  (nth_error (log_of (DecodeS64 (logRead Read) (r, []))) i = Some (b, Some e) ->
   fst (DecodeS64 Read r) = (0%Z, Some e) /\
   length (log_of (DecodeS64 (logRead Read) (r, []))) = S i).
Proof.
  intros He.
  assert (Hpass : passed_on e = e) by (destruct e; [contradiction | reflexivity..]).
  split; [|split]; intros Hi.
  - rewrite <- DecodeU32_logged, <- Hpass.
    destruct (stopped_on_error 0%N _ i b e (DecodeU32_reads Read r) Hi) as (H & Hlen & _).
    split; assumption.
  - rewrite <- DecodeU64_logged, <- Hpass.
    destruct (stopped_on_error 0%N _ i b e (DecodeU64_reads Read r) Hi) as (H & Hlen & _).
    split; assumption.
  - rewrite <- DecodeS64_logged, <- Hpass.
    destruct (stopped_on_error 0%Z _ i b e (DecodeS64_reads Read r) Hi) as (H & Hlen & _).
    split; assumption.
Qed.

Lemma source_failure_is_passed_on_witness :
  fst (DecodeU32 scriptRead [(x80, None); (x00, Some (ErrSource 7)); (x01, None)])
  = (0%N, Some (ErrSource 7)) /\
  fst (DecodeU64 scriptRead [(x80, None); (x00, Some (ErrSource 7)); (x01, None)])
  = (0%N, Some (ErrSource 7)) /\
  fst (DecodeS64 scriptRead [(x80, None); (x00, Some (ErrSource 7)); (x01, None)])
  = (0%Z, Some (ErrSource 7)).
Proof.
  destruct (source_failure_is_passed_on _ scriptRead
              [(x80, None); (x00, Some (ErrSource 7)); (x01, None)]
              1 x00 (ErrSource 7)) as (H32 & H64 & HS); [discriminate|].
  split; [|split].
  - apply H32. reflexivity.
  - apply H64. reflexivity.
  - apply HS. reflexivity.
Defined.

(** * More about the decoders *)

Lemma has_flag_N (x : byte) : has_flag x = negb (byte_to_N x <? 128)%N.
Proof. unfold has_flag. rewrite flag_clear_N. reflexivity. Qed.

Lemma has_flag_Z (x : byte) : has_flag x = negb (byte_to_Z x <? 128)%Z.
Proof. unfold has_flag. rewrite <- flag_N_Z, flag_clear_Z. reflexivity. Qed.

Section FlaggedBytes.

Context {R : Type} (Read : reader R).

(** An iteration on a byte with the flag: nothing but [shift] decides
    whether the loop goes on. *)
Lemma DecodeU_loop_flagged (W lim : N) (r r' : R) (x : byte) (res shift : N)
      (buf : byte) :
  Read r buf = (x, None, r') -> has_flag x = true ->
  DecodeU_loop Read W lim r res shift buf =
  if (W <? shift + 7)%N then (0%N, Some ErrOverflow, r')
  else DecodeU_loop Read W lim r'
         (N.lor res (N.shiftl (N.land (byte_to_N x) 0x7F) shift mod 2 ^ W))
         (shift + 7) x.
Proof.
  intros HRead Hflag. rewrite DecodeU_loop_equation_1, HRead. cbv zeta.
  unfold has_flag in Hflag. apply negb_true_iff in Hflag. rewrite Hflag.
  destruct (N_gt_dec (shift + 7) W) as [Hgt|Hle].
  - apply N.ltb_lt in Hgt. rewrite Hgt. reflexivity.
  - apply N.ltb_ge in Hle. rewrite Hle. reflexivity.
Qed.

Lemma DecodeS64_loop_flagged (r r' : R) (x : byte) (res : Z) (shift : N)
      (prev : Z) (buf : byte) :
  Read r buf = (x, None, r') -> has_flag x = true ->
  DecodeS64_loop Read r res shift prev buf =
  if (64 <? shift + 7)%N then (0%Z, Some ErrOverflow, r')
  else DecodeS64_loop Read r'
         (Z.lor res (int64 (Z.shiftl (Z.land (byte_to_Z x) 0x7F) (Z.of_N shift))))
         (shift + 7) (byte_to_Z x) x.
Proof.
  intros HRead Hflag. rewrite DecodeS64_loop_equation_1, HRead. cbv zeta.
  unfold has_flag in Hflag. apply negb_true_iff in Hflag.
  rewrite flag_N_Z, Hflag.
  destruct (N_gt_dec (shift + 7) 64) as [Hgt|Hle].
  - apply N.ltb_lt in Hgt. rewrite Hgt. reflexivity.
  - apply N.ltb_ge in Hle. rewrite Hle. reflexivity.
Qed.

End FlaggedBytes.

(** Bytes with the flag up to the one that takes [shift] above the width. *)
Lemma DecodeU_loop_too_long (W lim : N) (front : list byte) :
  forall (rest : list byte) (res shift : N) (buf : byte),
    Forall (fun x => has_flag x = true) front ->
    (shift <= W)%N ->
    (W < shift + 7 * N.of_nat (length front))%N ->
    (shift + 7 * N.of_nat (length front) <= W + 7)%N ->
    DecodeU_loop bytesRead W lim (front ++ rest) res shift buf
    = (0%N, Some ErrOverflow, rest).
Proof.
  induction front as [|x front IH]; intros rest res shift buf Hflags Hs Hgt Hle.
  - cbn [length] in Hgt, Hle. lia.
  - apply Forall_cons_iff in Hflags. destruct Hflags as [Hx Hflags].
    cbn [length app] in *.
    rewrite (DecodeU_loop_flagged bytesRead W lim _ (front ++ rest) x);
      [| reflexivity | exact Hx].
    destruct (N.ltb_spec W (shift + 7)) as [Hov|Hov].
    + destruct front as [|y front]; [reflexivity|]. cbn [length] in Hle. lia.
    + apply IH; [exact Hflags | lia | lia | lia].
Qed.

Lemma DecodeS64_loop_too_long (front : list byte) :
  forall (rest : list byte) (res : Z) (shift : N) (prev : Z) (buf : byte),
    Forall (fun x => has_flag x = true) front ->
    (shift <= 64)%N ->
    (64 < shift + 7 * N.of_nat (length front))%N ->
    (shift + 7 * N.of_nat (length front) <= 64 + 7)%N ->
    DecodeS64_loop bytesRead (front ++ rest) res shift prev buf
    = (0%Z, Some ErrOverflow, rest).
Proof.
  induction front as [|x front IH]; intros rest res shift prev buf Hflags Hs Hgt Hle.
  - cbn [length] in Hgt, Hle. lia.
  - apply Forall_cons_iff in Hflags. destruct Hflags as [Hx Hflags].
    cbn [length app] in *.
    rewrite (DecodeS64_loop_flagged bytesRead _ (front ++ rest) x);
      [| reflexivity | exact Hx].
    destruct (N.ltb_spec 64 (shift + 7)) as [Hov|Hov].
    + destruct front as [|y front]; [reflexivity|]. cbn [length] in Hle. lia.
    + apply IH; [exact Hflags | lia | lia | lia].
Qed.

(** X6.  Five bytes with the continuation flag make [DecodeU32] fail with
    [ErrOverflow], ten make [DecodeU64] and [DecodeS64] fail with it; the
    bytes after them are left unread. *)
Theorem too_many_flagged_bytes (front rest : list byte) :
  Forall (fun x => has_flag x = true) front ->
  (length front = 5 ->
   DecodeU32 bytesRead (front ++ rest) = (0%N, Some ErrOverflow, rest)) /\
  (length front = 10 ->
   DecodeU64 bytesRead (front ++ rest) = (0%N, Some ErrOverflow, rest)) /\
  (length front = 10 ->
   DecodeS64 bytesRead (front ++ rest) = (0%Z, Some ErrOverflow, rest)).
Proof.
  intros Hflags. split; [|split]; intros Hlen.
  - unfold DecodeU32. rewrite DecodeU32_loop_generic.
    apply DecodeU_loop_too_long; [exact Hflags | discriminate
                                 | rewrite Hlen; reflexivity
                                 | rewrite Hlen; discriminate].
  - unfold DecodeU64. rewrite DecodeU64_loop_generic.
    apply DecodeU_loop_too_long; [exact Hflags | discriminate
                                 | rewrite Hlen; reflexivity
                                 | rewrite Hlen; discriminate].
  - unfold DecodeS64.
    apply DecodeS64_loop_too_long; [exact Hflags | discriminate
                                   | rewrite Hlen; reflexivity
                                   | rewrite Hlen; discriminate].
Qed.

Lemma too_many_flagged_bytes_witness :
  DecodeU32 bytesRead ([x81; x82; x83; x84; x85] ++ [x01])
  = (0%N, Some ErrOverflow, [x01]).
Proof.
  apply (too_many_flagged_bytes [x81; x82; x83; x84; x85] [x01]).
  - repeat constructor.
  - reflexivity.
Defined.

Section UnflaggedByte.

Context {R : Type} (Read : reader R).

(** An iteration on a byte without the flag is the last one: whatever the
    result, the reader is left where this call of [Read] left it. *)
Lemma DecodeU_loop_unflagged (W lim : N) (r r' : R) (x : byte) (res shift : N)
      (buf : byte) :
  Read r buf = (x, None, r') -> has_flag x = false ->
  snd (DecodeU_loop Read W lim r res shift buf) = r'.
Proof.
  intros HRead Hflag. rewrite DecodeU_loop_equation_1, HRead. cbv zeta.
  unfold has_flag in Hflag. apply negb_false_iff in Hflag. rewrite Hflag.
  repeat match goal with
         | |- context [if ?c then _ else _] => destruct c
         end; reflexivity.
Qed.

Lemma DecodeS64_loop_unflagged (r r' : R) (x : byte) (res : Z) (shift : N)
      (prev : Z) (buf : byte) :
  Read r buf = (x, None, r') -> has_flag x = false ->
  snd (DecodeS64_loop Read r res shift prev buf) = r'.
Proof.
  intros HRead Hflag. rewrite DecodeS64_loop_equation_1, HRead. cbv zeta.
  unfold has_flag in Hflag. apply negb_false_iff in Hflag.
  rewrite flag_N_Z, Hflag.
  repeat match goal with
         | |- context [if ?c then _ else _] => destruct c
         end; reflexivity.
Qed.

End UnflaggedByte.

Lemma DecodeU_loop_position (W lim : N) (front : list byte) :
  forall (x : byte) (rest : list byte) (res shift : N) (buf : byte),
    Forall (fun y => has_flag y = true) front -> has_flag x = false ->
    (shift + 7 * N.of_nat (length front) <= W)%N ->
    snd (DecodeU_loop bytesRead W lim (front ++ x :: rest) res shift buf) = rest.
Proof.
  induction front as [|y front IH]; intros x rest res shift buf Hflags Hx Hle.
  - apply (DecodeU_loop_unflagged bytesRead W lim _ rest x); [reflexivity | exact Hx].
  - apply Forall_cons_iff in Hflags. destruct Hflags as [Hy Hflags].
    cbn [length app] in *.
    rewrite (DecodeU_loop_flagged bytesRead W lim _ (front ++ x :: rest) y);
      [| reflexivity | exact Hy].
    destruct (N.ltb_spec W (shift + 7)) as [Hov|Hov]; [lia|].
    apply IH; [exact Hflags | exact Hx | lia].
Qed.

Lemma DecodeS64_loop_position (front : list byte) :
  forall (x : byte) (rest : list byte) (res : Z) (shift : N) (prev : Z) (buf : byte),
    Forall (fun y => has_flag y = true) front -> has_flag x = false ->
    (shift + 7 * N.of_nat (length front) <= 64)%N ->
    snd (DecodeS64_loop bytesRead (front ++ x :: rest) res shift prev buf) = rest.
Proof.
  induction front as [|y front IH]; intros x rest res shift prev buf Hflags Hx Hle.
  - apply (DecodeS64_loop_unflagged bytesRead _ rest x); [reflexivity | exact Hx].
  - apply Forall_cons_iff in Hflags. destruct Hflags as [Hy Hflags].
    cbn [length app] in *.
    rewrite (DecodeS64_loop_flagged bytesRead _ (front ++ x :: rest) y);
      [| reflexivity | exact Hy].
    destruct (N.ltb_spec 64 (shift + 7)) as [Hov|Hov]; [lia|].
    apply IH; [exact Hflags | exact Hx | lia].
Qed.

(** X7.  A decoder reads up to the first byte without the continuation flag
    and no further, whether it accepts the bytes or fails on them: after at
    most four (nine) bytes with the flag and one without, the reader is left
    at the byte after that one. *)
Theorem decoders_stop_after_the_unflagged_byte
        (front : list byte) (x : byte) (rest : list byte) :
  Forall (fun y => has_flag y = true) front -> has_flag x = false ->
  (length front <= 4 -> snd (DecodeU32 bytesRead (front ++ x :: rest)) = rest) /\
  (length front <= 9 -> snd (DecodeU64 bytesRead (front ++ x :: rest)) = rest) /\
  (length front <= 9 -> snd (DecodeS64 bytesRead (front ++ x :: rest)) = rest).
Proof.
  intros Hflags Hx. split; [|split]; intros Hlen.
  - unfold DecodeU32. rewrite DecodeU32_loop_generic.
    apply DecodeU_loop_position; [exact Hflags | exact Hx | lia].
  - unfold DecodeU64. rewrite DecodeU64_loop_generic.
    apply DecodeU_loop_position; [exact Hflags | exact Hx | lia].
  - unfold DecodeS64.
    apply DecodeS64_loop_position; [exact Hflags | exact Hx | lia].
Qed.

Lemma decoders_stop_after_the_unflagged_byte_witness :
  snd (DecodeU32 bytesRead ([x80] ++ x00 :: [xff])) = [xff] /\
  snd (DecodeU64 bytesRead ([x80] ++ x00 :: [xff])) = [xff] /\
  snd (DecodeS64 bytesRead ([x80] ++ x00 :: [xff])) = [xff].
Proof.
  destruct (decoders_stop_after_the_unflagged_byte [x80] x00 [xff])
    as (H32 & H64 & HS); [repeat constructor | reflexivity |].
  split; [|split]; [apply H32 | apply H64 | apply HS]; cbn; lia.
Defined.

(** A zero byte without the flag, after at least one byte. *)
Lemma DecodeU_loop_trailing_zero (W lim : N) (front : list byte) :
  forall (rest : list byte) (res shift : N) (buf : byte),
    Forall (fun y => has_flag y = true) front ->
    (shift + 7 * N.of_nat (length front) <= W)%N ->
    (0 < shift + 7 * N.of_nat (length front))%N ->
    DecodeU_loop bytesRead W lim (front ++ x00 :: rest) res shift buf
    = (0%N, Some ErrNonMinimal, rest).
Proof.
  induction front as [|y front IH]; intros rest res shift buf Hflags Hle Hpos.
  - cbn [length app] in *. rewrite DecodeU_loop_equation_1. cbn [bytesRead]. cbv zeta.
    change (byte_to_N x00) with 0%N. cbn [N.land N.eqb].
    replace (lim <? 0)%N with false by (symmetry; apply N.ltb_ge; lia).
    replace (7 <? shift + 7)%N with true by (symmetry; apply N.ltb_lt; lia).
    rewrite andb_false_r. reflexivity.
  - apply Forall_cons_iff in Hflags. destruct Hflags as [Hy Hflags].
    cbn [length app] in *.
    rewrite (DecodeU_loop_flagged bytesRead W lim _ (front ++ x00 :: rest) y);
      [| reflexivity | exact Hy].
    destruct (N.ltb_spec W (shift + 7)) as [Hov|Hov]; [lia|].
    apply IH; [exact Hflags | lia | lia].
Qed.

(** X8.  The unsigned decoders fail with [ErrNonMinimal] on a zero byte that
    ends a sequence of one to four (nine) bytes with the continuation flag,
    and leave the bytes after it unread. *)
Theorem unsigned_trailing_zero_is_NonMinimal (front rest : list byte) :
  Forall (fun y => has_flag y = true) front -> 1 <= length front ->
  (length front <= 4 ->
   DecodeU32 bytesRead (front ++ x00 :: rest) = (0%N, Some ErrNonMinimal, rest)) /\
  (length front <= 9 ->
   DecodeU64 bytesRead (front ++ x00 :: rest) = (0%N, Some ErrNonMinimal, rest)).
Proof.
  intros Hflags Hpos. split; intros Hlen.
  - unfold DecodeU32. rewrite DecodeU32_loop_generic.
    apply DecodeU_loop_trailing_zero; [exact Hflags | lia | lia].
  - unfold DecodeU64. rewrite DecodeU64_loop_generic.
    apply DecodeU_loop_trailing_zero; [exact Hflags | lia | lia].
Qed.

Lemma unsigned_trailing_zero_is_NonMinimal_witness :
  DecodeU32 bytesRead ([xff; x80] ++ x00 :: [x01]) = (0%N, Some ErrNonMinimal, [x01]) /\
  DecodeU64 bytesRead ([xff; x80] ++ x00 :: [x01]) = (0%N, Some ErrNonMinimal, [x01]).
Proof.
  destruct (unsigned_trailing_zero_is_NonMinimal [xff; x80] [x01]) as (H32 & H64);
    [repeat constructor | cbn; lia |].
  split; [apply H32 | apply H64]; cbn; lia.
Defined.

(** Nine bytes with the flag and a tenth without it. *)
Lemma DecodeS64_loop_tenth_byte (front : list byte) :
  forall (x : byte) (rest : list byte) (res : Z) (shift : N) (prev : Z) (buf : byte),
    Forall (fun y => has_flag y = true) front -> has_flag x = false ->
    x <> x00 -> x <> x7f ->
    (shift + 7 * N.of_nat (length front) = 63)%N ->
    DecodeS64_loop bytesRead (front ++ x :: rest) res shift prev buf
    = (0%Z, Some ErrOverflow, rest).
Proof.
  induction front as [|y front IH];
    intros x rest res shift prev buf Hflags Hx H0 H7f Hshift.
  - cbn [length app] in *. assert (shift = 63%N) as -> by lia.
    rewrite DecodeS64_loop_equation_1. cbn [bytesRead]. cbv zeta.
    unfold has_flag in Hx. apply negb_false_iff in Hx. rewrite flag_N_Z, Hx.
    change (64 <? 63 + 7)%N with true.
    replace (byte_to_Z x =? 0)%Z with false
      by (destruct x; solve [reflexivity | contradiction]).
    replace (byte_to_Z x =? 127)%Z with false
      by (destruct x; solve [reflexivity | contradiction]).
    reflexivity.
  - apply Forall_cons_iff in Hflags. destruct Hflags as [Hy Hflags].
    cbn [length app] in *.
    rewrite (DecodeS64_loop_flagged bytesRead _ (front ++ x :: rest) y);
      [| reflexivity | exact Hy].
    destruct (N.ltb_spec 64 (shift + 7)) as [Hov|Hov]; [lia|].
    apply IH; [exact Hflags | exact Hx | exact H0 | exact H7f | lia].
Qed.

(** X9.  [DecodeS64] fails with [ErrOverflow] on a tenth byte that has no
    continuation flag and is neither 0x00 nor 0x7F, and leaves the bytes after
    it unread. *)
Theorem DecodeS64_tenth_byte_overflow (front : list byte) (x : byte)
        (rest : list byte) :
  Forall (fun y => has_flag y = true) front -> length front = 9 ->
  has_flag x = false -> x <> x00 -> x <> x7f ->
  DecodeS64 bytesRead (front ++ x :: rest) = (0%Z, Some ErrOverflow, rest).
Proof.
  intros Hflags Hlen Hx H0 H7f. unfold DecodeS64.
  apply DecodeS64_loop_tenth_byte; try assumption. rewrite Hlen. reflexivity.
Qed.

Lemma DecodeS64_tenth_byte_overflow_witness :
  DecodeS64 bytesRead ([x80; x80; x80; x80; x80; x80; x80; x80; x80] ++ x01 :: [])
  = (0%Z, Some ErrOverflow, []).
Proof.
  apply DecodeS64_tenth_byte_overflow;
    [repeat constructor | reflexivity | reflexivity | discriminate | discriminate].
Defined.

(** * More about the readers *)

Section ReadsCount.

Context {R : Type} (Read : reader R).

(** Each call of [Read] but the last one adds 7 to [shift], and [shift] stays
    within the width. *)
Lemma DecodeU_loop_reads_count (W lim : N) (n : nat) :
  forall (r : R) (log0 : list answer) (res shift : N) (buf : byte),
    n = N.to_nat (W + 7 - shift) ->
    7 * length (log_of (DecodeU_loop (logRead Read) W lim (r, log0) res shift buf))
    <= 7 * length log0 + Nat.max 7 (N.to_nat (W + 7 - shift)).
Proof.
  induction n as [n IH] using lt_wf_ind. intros r log0 res shift buf Hn.
  rewrite DecodeU_loop_equation_1. unfold logRead at 1. cbn [fst snd].
  destruct (Read r buf) as [[b e] r'].
  assert (Hone : 7 * length (log0 ++ [(b, e)])
                 <= 7 * length log0 + Nat.max 7 (N.to_nat (W + 7 - shift)))
    by (rewrite length_app; cbn [length]; lia).
  destruct e as [e|].
  - destruct e; exact Hone.
  - cbv zeta. destruct (N.land (byte_to_N b) 128 =? 0)%N.
    + repeat match goal with
             | |- context [if ?c then _ else _] => destruct c
             end; exact Hone.
    + destruct (N_gt_dec (shift + 7) W) as [Hgt|Hle]; [exact Hone|].
      specialize (IH (N.to_nat (W + 7 - (shift + 7))) ltac:(lia) r'
                     (log0 ++ [(b, None)]) (N.lor res (N.shiftl (N.land (byte_to_N b) 127) shift mod 2 ^ W)) (shift + 7)%N b eq_refl).
      rewrite length_app in IH. cbn [length] in IH. lia.
Qed.

Lemma DecodeS64_loop_reads_count (n : nat) :
  forall (r : R) (log0 : list answer) (res : Z) (shift : N) (prev : Z) (buf : byte),
    n = N.to_nat (71 - shift) ->
    7 * length (log_of (DecodeS64_loop (logRead Read) (r, log0) res shift prev buf))
    <= 7 * length log0 + Nat.max 7 (N.to_nat (71 - shift)).
Proof.
  induction n as [n IH] using lt_wf_ind. intros r log0 res shift prev buf Hn.
  rewrite DecodeS64_loop_equation_1. unfold logRead at 1. cbn [fst snd].
  destruct (Read r buf) as [[b e] r'].
  assert (Hone : 7 * length (log0 ++ [(b, e)])
                 <= 7 * length log0 + Nat.max 7 (N.to_nat (71 - shift)))
    by (rewrite length_app; cbn [length]; lia).
  destruct e as [e|].
  - destruct e; exact Hone.
  - cbv zeta. destruct (Z.land (byte_to_Z b) 128 =? 0)%Z.
    + repeat match goal with
             | |- context [if ?c then _ else _] => destruct c
             end; exact Hone.
    + destruct (N_gt_dec (shift + 7) 64) as [Hgt|Hle]; [exact Hone|].
      specialize (IH (N.to_nat (71 - (shift + 7))) ltac:(lia) r'
                     (log0 ++ [(b, None)])
                     (Z.lor res (int64 (Z.shiftl (Z.land (byte_to_Z b) 127) (Z.of_N shift))))
                     (shift + 7)%N (byte_to_Z b) b eq_refl).
      rewrite length_app in IH. cbn [length] in IH. lia.
Qed.

(** Whatever the reader answers, an error of the reader is not answered as
    [io.EOF], and an error comes with the value 0. *)
Lemma DecodeU_loop_errors (W lim : N) (n : nat) :
  forall (r : R) (res shift : N) (buf : byte),
    n = N.to_nat (W + 7 - shift) ->
    snd (fst (DecodeU_loop Read W lim r res shift buf)) <> Some io_EOF /\
    (snd (fst (DecodeU_loop Read W lim r res shift buf)) <> None ->
     fst (fst (DecodeU_loop Read W lim r res shift buf)) = 0%N).
Proof.
  induction n as [n IH] using lt_wf_ind. intros r res shift buf Hn.
  rewrite DecodeU_loop_equation_1.
  destruct (Read r buf) as [[b e] r']. destruct e as [e|].
  - destruct e; cbn; split; solve [discriminate | reflexivity].
  - cbv zeta. destruct (N.land (byte_to_N b) 128 =? 0)%N.
    + repeat match goal with
             | |- context [if ?c then _ else _] => destruct c
             end; cbn; split; solve [discriminate | reflexivity | contradiction].
    + destruct (N_gt_dec (shift + 7) W) as [Hgt|Hle].
      * cbn; split; solve [discriminate | reflexivity].
      * apply (IH (N.to_nat (W + 7 - (shift + 7)))); [lia | reflexivity].
Qed.

Lemma DecodeS64_loop_errors (n : nat) :
  forall (r : R) (res : Z) (shift : N) (prev : Z) (buf : byte),
    n = N.to_nat (71 - shift) ->
    snd (fst (DecodeS64_loop Read r res shift prev buf)) <> Some io_EOF /\
    (snd (fst (DecodeS64_loop Read r res shift prev buf)) <> None ->
     fst (fst (DecodeS64_loop Read r res shift prev buf)) = 0%Z).
Proof.
  induction n as [n IH] using lt_wf_ind. intros r res shift prev buf Hn.
  rewrite DecodeS64_loop_equation_1.
  destruct (Read r buf) as [[b e] r']. destruct e as [e|].
  - destruct e; cbn; split; solve [discriminate | reflexivity].
  - cbv zeta. destruct (Z.land (byte_to_Z b) 128 =? 0)%Z.
    + repeat match goal with
             | |- context [if ?c then _ else _] => destruct c
             end; cbn; split; solve [discriminate | reflexivity | contradiction].
    + destruct (N_gt_dec (shift + 7) 64) as [Hgt|Hle].
      * cbn; split; solve [discriminate | reflexivity].
      * apply (IH (N.to_nat (71 - (shift + 7)))); [lia | reflexivity].
Qed.

End ReadsCount.

(** X4.  Whatever the reader, [DecodeU32] calls [Read] at least once and at
    most five times, [DecodeU64] and [DecodeS64] at most ten times. *)
Theorem decoders_read_at_most (R : Type) (Read : reader R) (r : R) :
  1 <= length (log_of (DecodeU32 (logRead Read) (r, []))) <= 5 /\
  1 <= length (log_of (DecodeU64 (logRead Read) (r, []))) <= 10 /\
  1 <= length (log_of (DecodeS64 (logRead Read) (r, []))) <= 10.
Proof.
  split; [|split]; split.
  - destruct (DecodeU32_reads Read r) as (front & last & Hlog & _).
    unfold log_of. rewrite Hlog, !length_app. cbn. lia.
  - pose proof (DecodeU_loop_reads_count Read 32 0xF _ r [] 0%N 0%N x00 eq_refl) as H.
    unfold DecodeU32. rewrite DecodeU32_loop_generic.
    change (N.to_nat (32 + 7 - 0)) with 39 in H. cbn [length] in H. lia.
  - destruct (DecodeU64_reads Read r) as (front & last & Hlog & _).
    unfold log_of. rewrite Hlog, !length_app. cbn. lia.
  - pose proof (DecodeU_loop_reads_count Read 64 1 _ r [] 0%N 0%N x00 eq_refl) as H.
    unfold DecodeU64. rewrite DecodeU64_loop_generic.
    change (N.to_nat (64 + 7 - 0)) with 71 in H. cbn [length] in H. lia.
  - destruct (DecodeS64_reads Read r) as (front & last & Hlog & _).
    unfold log_of. rewrite Hlog, !length_app. cbn. lia.
  - pose proof (DecodeS64_loop_reads_count Read _ r [] 0%Z 0%N 0%Z x00 eq_refl) as H.
    unfold DecodeS64.
    change (N.to_nat (71 - 0)) with 71 in H. cbn [length] in H. lia.
Qed.

(** X5.  Whatever the reader, no decoder answers [io.EOF], and a decoder
    that answers an error answers the value 0 with it. *)
Theorem decoder_errors (R : Type) (Read : reader R) (r : R) :
  (snd (fst (DecodeU32 Read r)) <> Some io_EOF /\
   (snd (fst (DecodeU32 Read r)) <> None -> fst (fst (DecodeU32 Read r)) = 0%N)) /\
  (snd (fst (DecodeU64 Read r)) <> Some io_EOF /\
   (snd (fst (DecodeU64 Read r)) <> None -> fst (fst (DecodeU64 Read r)) = 0%N)) /\
  (snd (fst (DecodeS64 Read r)) <> Some io_EOF /\
   (snd (fst (DecodeS64 Read r)) <> None -> fst (fst (DecodeS64 Read r)) = 0%Z)).
Proof.
  split; [|split].
  - unfold DecodeU32. rewrite DecodeU32_loop_generic.
    apply (DecodeU_loop_errors Read 32 0xF (N.to_nat (32 + 7 - 0))). reflexivity.
  - unfold DecodeU64. rewrite DecodeU64_loop_generic.
    apply (DecodeU_loop_errors Read 64 1 (N.to_nat (64 + 7 - 0))). reflexivity.
  - unfold DecodeS64.
    apply (DecodeS64_loop_errors Read (N.to_nat (71 - 0))). reflexivity.
Qed.

Lemma decoder_errors_witness :
  fst (fst (DecodeU32 bytesRead [xff; xff; xff; xff; x7f])) = 0%N /\
  fst (fst (DecodeU64 scriptRead [(x81, None); (x55, Some io_EOF)])) = 0%N /\
  fst (fst (DecodeS64 scriptRead [(x81, None); (x55, Some (ErrSource 3))])) = 0%Z.
Proof.
  split; [|split].
  - apply (decoder_errors _ bytesRead [xff; xff; xff; xff; x7f]). discriminate.
  - apply (decoder_errors _ scriptRead [(x81, None); (x55, Some io_EOF)]). discriminate.
  - apply (decoder_errors _ scriptRead [(x81, None); (x55, Some (ErrSource 3))]).
    discriminate.
Defined.

(** * More about round trips *)

(** X1.  An encoding is read up to its end and no further: over the bytes of
    [v] followed by any bytes [rest], a decoder answers [v] and leaves
    [rest].  So values written one after the other are read back one after
    the other. *)
Theorem decoders_leave_the_rest (rest : list byte) :
  (forall v, (v < 2 ^ 32)%N ->
             DecodeU32 bytesRead (EncodeU32 v ++ rest) = (v, None, rest)) /\
  (forall v, (v < 2 ^ 64)%N ->
             DecodeU64 bytesRead (EncodeU64 v ++ rest) = (v, None, rest)) /\
  (forall v, (- 2 ^ 63 <= v < 2 ^ 63)%Z ->
             DecodeS64 bytesRead (EncodeS64 v ++ rest) = (v, None, rest)).
Proof.
  split; [|split]; intros v Hv.
  - apply DecodeU32_encode. exact Hv.
  - apply DecodeU64_encode. exact Hv.
  - apply DecodeS64_encode. exact Hv.
Qed.

Lemma decoders_leave_the_rest_witness :
  DecodeU32 bytesRead (EncodeU32 300 ++ EncodeS64 (-5)) = (300%N, None, EncodeS64 (-5)) /\
  DecodeS64 bytesRead (EncodeS64 (-5) ++ []) = ((-5)%Z, None, []).
Proof.
  split.
  - apply (decoders_leave_the_rest (EncodeS64 (-5))). reflexivity.
  - apply (decoders_leave_the_rest []). split; vm_compute; [discriminate | reflexivity].
Defined.

(** X2.  No encoding is the beginning of another one: when two encodings,
    each followed by some bytes, give the same bytes, the values are the same
    and so are the bytes that follow.  In particular the encoders are
    injective. *)
Theorem encodings_are_prefix_free (r1 r2 : list byte) :
  (forall a b, (a < 2 ^ 32)%N -> (b < 2 ^ 32)%N ->
               EncodeU32 a ++ r1 = EncodeU32 b ++ r2 -> a = b /\ r1 = r2) /\
  (forall a b, (a < 2 ^ 64)%N -> (b < 2 ^ 64)%N ->
               EncodeU64 a ++ r1 = EncodeU64 b ++ r2 -> a = b /\ r1 = r2) /\
  (forall a b, (- 2 ^ 63 <= a < 2 ^ 63)%Z -> (- 2 ^ 63 <= b < 2 ^ 63)%Z ->
               EncodeS64 a ++ r1 = EncodeS64 b ++ r2 -> a = b /\ r1 = r2).
Proof.
  split; [|split]; intros a b Ha Hb Heq.
  - pose proof (DecodeU32_encode a r1 Ha) as H1.
    rewrite Heq, (DecodeU32_encode b r2 Hb) in H1.
    injection H1 as -> ->. split; reflexivity.
  - pose proof (DecodeU64_encode a r1 Ha) as H1.
    rewrite Heq, (DecodeU64_encode b r2 Hb) in H1.
    injection H1 as -> ->. split; reflexivity.
  - pose proof (DecodeS64_encode a r1 Ha) as H1.
    rewrite Heq, (DecodeS64_encode b r2 Hb) in H1.
    injection H1 as -> ->. split; reflexivity.
Qed.

Lemma encodings_are_prefix_free_witness :
  (300 = 300)%N /\ [x07] = [x07].
Proof.
  apply (proj1 (encodings_are_prefix_free [x07] [x07]) 300%N 300%N); reflexivity.
Defined.

Section UnsignedWidthMore.

Variables W lim : N.

Hypothesis lim_fits : forall shift p : N,
  (shift mod 7 = 0)%N -> (shift <= W)%N -> (W < shift + 7)%N -> (p < 128)%N ->
  ((lim < p)%N <-> (2 ^ W <= p * 2 ^ shift)%N).

Open Scope N_scope.

(** The encoding of a number that does not fit in what is left of the width
    is refused as too large. *)
Lemma DecodeU_loop_too_large (num : N) :
  forall (res shift : N) (buf : byte) (rest : list byte),
    shift mod 7 = 0 -> shift <= W ->
    2 ^ W <= num * 2 ^ shift ->
    fst (DecodeU_loop bytesRead W lim (EncodeU32 num ++ rest) res shift buf)
    = (0, Some ErrOverflow).
Proof.
  induction num as [num IH] using (well_founded_induction N.lt_wf_0).
  intros res shift buf rest Hmod HW Hbig.
  assert (HP : 0 < 2 ^ shift) by (apply N.neq_0_lt_0, N.pow_nonzero; lia).
  rewrite DecodeU_loop_equation_1.
  destruct (N.lt_ge_cases num 128) as [Hlt|Hge].
  - rewrite EncodeU32_last by exact Hlt. cbn [app bytesRead]. cbv zeta.
    rewrite flag_clear_N. rewrite byte_to_of_N by lia.
    rewrite (proj2 (N.ltb_lt num 128) Hlt).
    assert (Hov : W < shift + 7).
    { apply N.nle_gt. intros Hle.
      assert (H7 : 2 ^ (shift + 7) <= 2 ^ W) by (apply N.pow_le_mono_r; lia).
      rewrite pow2_shift7 in H7.
      assert (num * 2 ^ shift < 128 * 2 ^ shift)
        by (apply N.mul_lt_mono_pos_r; assumption).
      lia. }
    rewrite (proj2 (N.ltb_lt _ _) Hov).
    rewrite (proj2 (N.ltb_lt _ _) (proj2 (lim_fits shift num Hmod HW Hov Hlt) Hbig)).
    reflexivity.
  - rewrite EncodeU32_more by exact Hge. cbn [app bytesRead]. cbv zeta.
    rewrite flag_clear_N. rewrite byte_to_of_N by lia.
    replace (num mod 128 + 128 <? 128) with false by (symmetry; apply N.ltb_ge; lia).
    destruct (N_gt_dec (shift + 7) W) as [Hgt|Hle7]; [reflexivity|].
    apply IH.
    + apply N.div_lt; lia.
    + lia.
    + exact Hle7.
    + assert (HWs : 2 ^ W = 2 ^ (W - (shift + 7)) * (128 * 2 ^ shift)).
      { rewrite <- pow2_shift7, <- N.pow_add_r. f_equal. lia. }
      rewrite pow2_shift7. rewrite HWs in Hbig |- *.
      rewrite N.mul_assoc in Hbig. apply N.mul_le_mono_pos_r in Hbig; [|exact HP].
      apply N.mul_le_mono_r. apply N.div_le_lower_bound; lia.
Qed.

End UnsignedWidthMore.

(** X3.  What [DecodeU32] accepts [DecodeU64] accepts, with the same value and
    the same bytes left; the value is below 2^32, and its two unsigned
    encodings are the same bytes. *)
Theorem DecodeU64_accepts_what_DecodeU32_accepts
        (l : list byte) (v : N) (rest : list byte) :
  DecodeU32 bytesRead l = (v, None, rest) ->
  DecodeU64 bytesRead l = (v, None, rest) /\ (v < 2 ^ 32)%N /\
  EncodeU64 v = EncodeU32 v.
Proof.
  intros Hdec. unfold DecodeU32 in Hdec. rewrite DecodeU32_loop_generic in Hdec.
  apply (DecodeU_loop_minimal 32 0xF lim_fits_32) in Hdec;
    [| reflexivity | lia | rewrite N.pow_0_r; lia].
  destruct Hdec as (num & Hl & Hv & _ & Hfit).
  rewrite N.pow_0_r in Hv, Hfit. assert (v = num) as <- by lia.
  assert (Hv32 : (v < 2 ^ 32)%N) by lia.
  split; [|split; [exact Hv32 | apply EncodeU64_U32]].
  rewrite Hl, <- EncodeU64_U32. apply DecodeU64_encode.
  apply N.lt_trans with (m := (2 ^ 32)%N); [exact Hv32 | reflexivity].
Qed.

Lemma DecodeU64_accepts_what_DecodeU32_accepts_witness :
  DecodeU64 bytesRead [xff; xff; xff; xff; x0f; x33]
  = (4294967295%N, None, [x33]) /\ (4294967295 < 2 ^ 32)%N /\
  EncodeU64 4294967295 = EncodeU32 4294967295.
Proof.
  apply DecodeU64_accepts_what_DecodeU32_accepts. reflexivity.
Defined.

(** X10.  [DecodeU32] fails with [ErrOverflow] on the encoding of every
    uint64 value that is 2^32 or more, whatever follows it. *)
Theorem DecodeU32_refuses_large_values (v : N) (rest : list byte) :
  (2 ^ 32 <= v)%N ->
  fst (DecodeU32 bytesRead (EncodeU64 v ++ rest)) = (0%N, Some ErrOverflow).
Proof.
  intros Hv. unfold DecodeU32. rewrite DecodeU32_loop_generic, EncodeU64_U32.
  apply (DecodeU_loop_too_large 32 0xF lim_fits_32); [reflexivity | lia |].
  rewrite N.pow_0_r. lia.
Qed.

Lemma DecodeU32_refuses_large_values_witness :
  fst (DecodeU32 bytesRead (EncodeU64 (2 ^ 32) ++ [x00])) = (0%N, Some ErrOverflow).
Proof. apply DecodeU32_refuses_large_values. vm_compute. discriminate. Defined.

(** * More about the encoders *)

Lemma has_flag_of_N (n : N) : (n < 256)%N -> has_flag (byte_of_N n) = negb (n <? 128)%N.
Proof. intros Hn. rewrite has_flag_N, byte_to_of_N by exact Hn. reflexivity. Qed.

Lemma has_flag_of_Z (z : Z) :
  (0 <= z < 256)%Z -> has_flag (byte_of_Z z) = negb (z <? 128)%Z.
Proof. intros Hz. rewrite has_flag_Z, byte_to_of_Z by exact Hz. reflexivity. Qed.

(** The bytes of an unsigned encoding: bytes with the flag, then one
    without. *)
Lemma EncodeU32_shape (v : N) :
  exists (front : list byte) (last : byte),
    EncodeU32 v = front ++ [last] /\
    Forall (fun x => has_flag x = true) front /\ has_flag last = false.
Proof.
  induction v as [v IH] using (well_founded_induction N.lt_wf_0).
  destruct (N.lt_ge_cases v 128) as [Hlt|Hge].
  - exists [], (byte_of_N v). rewrite EncodeU32_last by exact Hlt.
    split; [reflexivity|]. split; [apply Forall_nil|].
    rewrite has_flag_of_N by lia. apply negb_false_iff, N.ltb_lt. exact Hlt.
  - destruct (IH (v / 128)%N) as (front & last & Henc & Hfront & Hlast).
    { apply N.div_lt; lia. }
    exists (byte_of_N (v mod 128 + 128) :: front), last.
    rewrite EncodeU32_more, Henc by exact Hge.
    split; [reflexivity|]. split; [|exact Hlast].
    apply Forall_cons; [|exact Hfront].
    rewrite has_flag_of_N by lia. apply negb_true_iff, N.ltb_ge. lia.
Qed.

(** The bytes of a signed encoding: bytes with the flag, then one without,
    which holds the seven low bits of a number [w] of the sign of [v]. *)
Lemma EncodeS64_shape (n : nat) :
  forall v : Z, n = Z.abs_nat v ->
  exists (front : list byte) (w : Z),
    EncodeS64 v = front ++ [byte_of_Z (w mod 128)] /\
    (-64 <= w < 64)%Z /\ ((0 <= w)%Z <-> (0 <= v)%Z) /\
    Forall (fun x => has_flag x = true) front.
Proof.
  induction n as [n IH] using lt_wf_ind. intros v Hn.
  destruct (Z_lt_le_dec v (-64)) as [Hlo|Hlo];
    [|destruct (Z_lt_le_dec v 64) as [Hhi|Hhi]].
  2: { exists [], v. rewrite EncodeS64_last by lia.
       split; [reflexivity|]. split; [lia|]. split; [reflexivity | apply Forall_nil]. }
  all: destruct (IH (Z.abs_nat (v / 128)) ltac:(lia) (v / 128)%Z eq_refl)
      as (front & w & Henc & Hw & Hsign & Hfront);
    exists (byte_of_Z (v mod 128 + 128) :: front), w;
    rewrite EncodeS64_more, Henc by lia;
    (split; [reflexivity|]); (split; [exact Hw|]); (split; [lia|]);
    apply Forall_cons; [|exact Hfront];
    rewrite has_flag_of_Z by lia; apply negb_true_iff, Z.ltb_ge; lia.
Qed.

(** X11.  In the bytes an encoder answers, every byte but the last has the
    continuation flag and the last has not. *)
Theorem encoders_flag_all_but_the_last (front : list byte) (last : byte) :
  (forall v, EncodeU32 v = front ++ [last] ->
             Forall (fun x => has_flag x = true) front /\ has_flag last = false) /\
  (forall v, EncodeU64 v = front ++ [last] ->
             Forall (fun x => has_flag x = true) front /\ has_flag last = false) /\
  (forall v, EncodeS64 v = front ++ [last] ->
             Forall (fun x => has_flag x = true) front /\ has_flag last = false).
Proof.
  split; [|split]; intros v Henc.
  - destruct (EncodeU32_shape v) as (front' & last' & Henc' & Hfront & Hlast).
    rewrite Henc in Henc'. apply app_inj_tail in Henc'. destruct Henc' as [-> ->].
    split; assumption.
  - rewrite EncodeU64_U32 in Henc.
    destruct (EncodeU32_shape v) as (front' & last' & Henc' & Hfront & Hlast).
    rewrite Henc in Henc'. apply app_inj_tail in Henc'. destruct Henc' as [-> ->].
    split; assumption.
  - destruct (EncodeS64_shape _ v eq_refl) as (front' & w & Henc' & Hw & _ & Hfront).
    rewrite Henc in Henc'. apply app_inj_tail in Henc'. destruct Henc' as [-> ->].
    split; [exact Hfront|].
    rewrite has_flag_of_Z by lia. apply negb_false_iff, Z.ltb_lt. lia.
Qed.

Lemma encoders_flag_all_but_the_last_witness :
  Forall (fun x => has_flag x = true) [xac] /\ has_flag x02 = false.
Proof.
  apply (proj1 (encoders_flag_all_but_the_last [xac] x02) 300%N). reflexivity.
Defined.

(** X12.  Bit 0x40 of the last byte [EncodeS64] answers is the sign of the
    value: clear when the value is 0 or more, set when it is negative. *)
Theorem EncodeS64_sign_bit (v : Z) (front : list byte) (last : byte) :
  EncodeS64 v = front ++ [last] ->
  (Z.land (byte_to_Z last) 0x40 = 0%Z <-> (0 <= v)%Z).
Proof.
  intros Henc.
  destruct (EncodeS64_shape _ v eq_refl) as (front' & w & Henc' & Hw & Hsign & _).
  rewrite Henc in Henc'. apply app_inj_tail in Henc'. destruct Henc' as [_ ->].
  rewrite sign_bit_byte, byte_to_of_Z by lia.
  rewrite <- Hsign.
  destruct (Z.ltb_spec ((w mod 128) mod 128) 64) as [H|H]; split; intros H'; lia.
Qed.

Lemma EncodeS64_sign_bit_witness :
  Z.land (byte_to_Z x7d) 0x40 = 0%Z <-> (0 <= -300)%Z.
Proof. apply (EncodeS64_sign_bit (-300) [xd4] x7d). reflexivity. Defined.

(** ** Exact lengths *)

Lemma EncodeS64_length_gt (k : nat) :
  forall v : Z, (v < - (64 * 128 ^ Z.of_nat k) \/ 64 * 128 ^ Z.of_nat k <= v)%Z ->
                S k < length (EncodeS64 v).
Proof.
  induction k as [|k IH]; intros v Hv.
  - change (128 ^ Z.of_nat 0)%Z with 1%Z in Hv.
    rewrite EncodeS64_more by lia. cbn [length].
    destruct (EncodeS64_shape _ (v / 128)%Z eq_refl) as (front & w & Henc & _).
    rewrite Henc, length_app. cbn. lia.
  - rewrite Nat2Z.inj_succ, Z.pow_succ_r in Hv by lia.
    assert (HP : (0 < 128 ^ Z.of_nat k)%Z) by (apply Z.pow_pos_nonneg; lia).
    rewrite EncodeS64_more by lia. cbn [length].
    assert (Hq : (v / 128 < - (64 * 128 ^ Z.of_nat k)
                  \/ 64 * 128 ^ Z.of_nat k <= v / 128)%Z) by lia.
    specialize (IH _ Hq). lia.
Qed.

(** X13.  The length of an encoding is the number of groups of seven bits the
    value needs: an unsigned value from 128^k up to 128^(k+1) - 1 takes k+1
    bytes; a signed value outside -64*128^k .. 64*128^k - 1 and inside
    -64*128^(k+1) .. 64*128^(k+1) - 1 takes k+2 bytes; the values below 128,
    resp. from -64 to 63, take one byte. *)
Theorem encoding_lengths (k : nat) :
  (forall v, (v < 128)%N -> length (EncodeU32 v) = 1 /\ length (EncodeU64 v) = 1) /\
  (forall v, (128 ^ N.of_nat k <= v < 128 ^ N.of_nat (S k))%N ->
             length (EncodeU32 v) = S k /\ length (EncodeU64 v) = S k) /\
  (forall v, (-64 <= v < 64)%Z -> length (EncodeS64 v) = 1) /\
  (forall v, (v < - (64 * 128 ^ Z.of_nat k) \/ 64 * 128 ^ Z.of_nat k <= v)%Z ->
             (- (64 * 128 ^ Z.of_nat (S k)) <= v < 64 * 128 ^ Z.of_nat (S k))%Z ->
             length (EncodeS64 v) = S (S k)).
Proof.
  split; [|split; [|split]].
  - intros v Hv. rewrite EncodeU64_U32, EncodeU32_last by exact Hv. split; reflexivity.
  - intros v [Hlo Hhi]. rewrite EncodeU64_U32.
    pose proof (EncodeU32_length_le k v Hhi). pose proof (EncodeU32_length_gt k v Hlo).
    lia.
  - intros v Hv. rewrite EncodeS64_last by exact Hv. reflexivity.
  - intros v Hout Hin.
    pose proof (EncodeS64_length_le (S k) v Hin). pose proof (EncodeS64_length_gt k v Hout).
    lia.
Qed.

Lemma encoding_lengths_witness :
  (length (EncodeU32 0) = 1 /\ length (EncodeU64 0) = 1) /\
  (length (EncodeU32 16384) = 3 /\ length (EncodeU64 16384) = 3) /\
  length (EncodeS64 (-64)) = 1 /\
  length (EncodeS64 (-65)) = 2.
Proof.
  destruct (encoding_lengths 0) as (Hone & _ & Hsone & Hs).
  destruct (encoding_lengths 2) as (_ & Hu & _).
  split; [|split; [|split]].
  - apply Hone. reflexivity.
  - apply Hu. split; vm_compute; [discriminate | reflexivity].
  - apply Hsone. split; vm_compute; [discriminate | reflexivity].
  - apply Hs.
    + left. reflexivity.
    + split; vm_compute; [discriminate | reflexivity].
Defined.

(** ** The digits *)

Lemma EncodeU32_digit (i : nat) :
  forall (v : N) (x : byte),
    nth_error (EncodeU32 v) i = Some x ->
    (byte_to_N x mod 128 = (v / 128 ^ N.of_nat i) mod 128)%N.
Proof.
  induction i as [|i IH]; intros v x Hx.
  - change (128 ^ N.of_nat 0)%N with 1%N. rewrite N.div_1_r.
    destruct (N.lt_ge_cases v 128) as [Hlt|Hge].
    + rewrite EncodeU32_last in Hx by exact Hlt. injection Hx as <-.
      rewrite byte_to_of_N by lia. reflexivity.
    + rewrite EncodeU32_more in Hx by exact Hge. injection Hx as <-.
      rewrite byte_to_of_N by lia. lia.
  - destruct (N.lt_ge_cases v 128) as [Hlt|Hge].
    + rewrite EncodeU32_last in Hx by exact Hlt. destruct i; discriminate Hx.
    + rewrite EncodeU32_more in Hx by exact Hge. cbn [nth_error] in Hx.
      rewrite (IH _ _ Hx), Nat2N.inj_succ, N.pow_succ_r', N.Div0.div_div.
      reflexivity.
Qed.

Lemma EncodeS64_digit (i : nat) :
  forall (v : Z) (x : byte),
    nth_error (EncodeS64 v) i = Some x ->
    (byte_to_Z x mod 128 = (v / 128 ^ Z.of_nat i) mod 128)%Z.
Proof.
  induction i as [|i IH]; intros v x Hx.
  - change (128 ^ Z.of_nat 0)%Z with 1%Z. rewrite Z.div_1_r.
    destruct (Z_lt_le_dec v (-64)) as [Hlo|Hlo];
      [|destruct (Z_lt_le_dec v 64) as [Hhi|Hhi]].
    2: { rewrite EncodeS64_last in Hx by lia. injection Hx as <-.
         rewrite byte_to_of_Z by lia. lia. }
    all: rewrite EncodeS64_more in Hx by lia; injection Hx as <-;
      rewrite byte_to_of_Z by lia; lia.
  - assert (HP : (0 < 128 ^ Z.of_nat i)%Z) by (apply Z.pow_pos_nonneg; lia).
    destruct (Z_lt_le_dec v (-64)) as [Hlo|Hlo];
      [|destruct (Z_lt_le_dec v 64) as [Hhi|Hhi]].
    2: { rewrite EncodeS64_last in Hx by lia. destruct i; discriminate Hx. }
    all: rewrite EncodeS64_more in Hx by lia; cbn [nth_error] in Hx;
      rewrite (IH _ _ Hx), Nat2Z.inj_succ, Z.pow_succ_r by lia;
      rewrite Z.div_div by lia; reflexivity.
Qed.

(** X14.  The bytes of an encoding are the digits of the value in base 128,
    lowest first: the seven low bits of the byte number [i] are the bits
    7i .. 7i+6 of the value (of its two's complement, for [EncodeS64]). *)
Theorem encodings_are_base_128_digits (i : nat) (x : byte) :
  (forall v, nth_error (EncodeU32 v) i = Some x ->
             N.land (byte_to_N x) 0x7F = N.land (N.shiftr v (7 * N.of_nat i)) 0x7F) /\
  (forall v, nth_error (EncodeU64 v) i = Some x ->
             N.land (byte_to_N x) 0x7F = N.land (N.shiftr v (7 * N.of_nat i)) 0x7F) /\
  (forall v, nth_error (EncodeS64 v) i = Some x ->
             Z.land (byte_to_Z x) 0x7F = Z.land (Z.shiftr v (7 * Z.of_nat i)) 0x7F).
Proof.
  assert (HN : forall v, nth_error (EncodeU32 v) i = Some x ->
             N.land (byte_to_N x) 0x7F = N.land (N.shiftr v (7 * N.of_nat i)) 0x7F).
  { intros v Hx. rewrite !payload_N, N.shiftr_div_pow2, N.pow_mul_r.
    change (2 ^ 7)%N with 128%N. apply EncodeU32_digit. exact Hx. }
  split; [exact HN|]. split.
  - intros v. rewrite EncodeU64_U32. apply HN.
  - intros v Hx. rewrite !payload_Z, Z.shiftr_div_pow2, Z.pow_mul_r by lia.
    change (2 ^ 7)%Z with 128%Z. apply EncodeS64_digit. exact Hx.
Qed.

Lemma encodings_are_base_128_digits_witness :
  Z.land (byte_to_Z xd4) 0x7F = Z.land (Z.shiftr (-300) (7 * Z.of_nat 0)) 0x7F.
Proof.
  apply (proj2 (proj2 (encodings_are_base_128_digits 0 xd4)) (-300)%Z). reflexivity.
Defined.

(** * Truncated input *)

(** Bytes with the flag and then the end of the slice. *)
Lemma DecodeU_loop_truncated (W lim : N) (p : list byte) :
  forall (res shift : N) (buf : byte),
    Forall (fun x => has_flag x = true) p ->
    (shift + 7 * N.of_nat (length p) <= W)%N ->
    DecodeU_loop bytesRead W lim p res shift buf = (0%N, Some ErrNonMinimal, []).
Proof.
  induction p as [|x p IH]; intros res shift buf Hflags Hle.
  - rewrite DecodeU_loop_equation_1. reflexivity.
  - apply Forall_cons_iff in Hflags. destruct Hflags as [Hx Hflags].
    cbn [length] in Hle.
    rewrite (DecodeU_loop_flagged bytesRead W lim _ p x); [| reflexivity | exact Hx].
    destruct (N.ltb_spec W (shift + 7)) as [Hov|Hov]; [lia|].
    apply IH; [exact Hflags | lia].
Qed.

Lemma DecodeS64_loop_truncated (p : list byte) :
  forall (res : Z) (shift : N) (prev : Z) (buf : byte),
    Forall (fun x => has_flag x = true) p ->
    (shift + 7 * N.of_nat (length p) <= 64)%N ->
    DecodeS64_loop bytesRead p res shift prev buf = (0%Z, Some ErrNonMinimal, []).
Proof.
  induction p as [|x p IH]; intros res shift prev buf Hflags Hle.
  - rewrite DecodeS64_loop_equation_1. reflexivity.
  - apply Forall_cons_iff in Hflags. destruct Hflags as [Hx Hflags].
    cbn [length] in Hle.
    rewrite (DecodeS64_loop_flagged bytesRead _ p x); [| reflexivity | exact Hx].
    destruct (N.ltb_spec 64 (shift + 7)) as [Hov|Hov]; [lia|].
    apply IH; [exact Hflags | lia].
Qed.

(** The beginning of a list that ends with one more element. *)
Lemma proper_prefix {A : Type} (p q front : list A) (last : A) :
  q <> [] -> p ++ q = front ++ [last] -> exists q', front = p ++ q'.
Proof.
  intros Hq Heq. destruct (exists_last Hq) as (q' & a & ->).
  rewrite app_assoc in Heq. apply app_inj_tail in Heq. destruct Heq as [Heq _].
  exists q'. symmetry. exact Heq.
Qed.

(** X15.  An encoding cut short is refused with [ErrNonMinimal]: over any
    beginning [p] of the bytes of a value that leaves out at least the last
    byte, a decoder answers 0 and [ErrNonMinimal], never a value. *)
Theorem truncated_encodings_are_NonMinimal (p q : list byte) :
  q <> [] ->
  (forall v, (v < 2 ^ 32)%N -> EncodeU32 v = p ++ q ->
             DecodeU32 bytesRead p = (0%N, Some ErrNonMinimal, [])) /\
  (forall v, (v < 2 ^ 64)%N -> EncodeU64 v = p ++ q ->
             DecodeU64 bytesRead p = (0%N, Some ErrNonMinimal, [])) /\
  (forall v, (- 2 ^ 63 <= v < 2 ^ 63)%Z -> EncodeS64 v = p ++ q ->
             DecodeS64 bytesRead p = (0%Z, Some ErrNonMinimal, [])).
Proof.
  intros Hq. split; [|split]; intros v Hv Henc.
  - destruct (EncodeU32_shape v) as (front & last & Hshape & Hfront & _).
    assert (Hlen : length (EncodeU32 v) <= 5).
    { apply (EncodeU32_length_le 4).
      apply N.lt_trans with (m := (2 ^ 32)%N); [exact Hv | reflexivity]. }
    rewrite Henc in Hshape. destruct (proper_prefix _ _ _ _ Hq Hshape) as (q' & ->).
    rewrite Henc, Hshape, !length_app in Hlen. cbn [length] in Hlen.
    apply Forall_app in Hfront. destruct Hfront as [Hp _].
    unfold DecodeU32. rewrite DecodeU32_loop_generic.
    apply DecodeU_loop_truncated; [exact Hp | lia].
  - rewrite EncodeU64_U32 in Henc.
    destruct (EncodeU32_shape v) as (front & last & Hshape & Hfront & _).
    assert (Hlen : length (EncodeU32 v) <= 10).
    { apply (EncodeU32_length_le 9).
      apply N.lt_trans with (m := (2 ^ 64)%N); [exact Hv | reflexivity]. }
    rewrite Henc in Hshape. destruct (proper_prefix _ _ _ _ Hq Hshape) as (q' & ->).
    rewrite Henc, Hshape, !length_app in Hlen. cbn [length] in Hlen.
    apply Forall_app in Hfront. destruct Hfront as [Hp _].
    unfold DecodeU64. rewrite DecodeU64_loop_generic.
    apply DecodeU_loop_truncated; [exact Hp | lia].
  - destruct (EncodeS64_shape _ v eq_refl) as (front & w & Hshape & _ & _ & Hfront).
    assert (Hlen : length (EncodeS64 v) <= 10).
    { apply (EncodeS64_length_le 9).
      change (64 * 128 ^ Z.of_nat 9)%Z with (64 * 2 ^ 63)%Z. lia. }
    rewrite Henc in Hshape. destruct (proper_prefix _ _ _ _ Hq Hshape) as (q' & ->).
    rewrite Henc, Hshape, !length_app in Hlen. cbn [length] in Hlen.
    apply Forall_app in Hfront. destruct Hfront as [Hp _].
    unfold DecodeS64.
    apply DecodeS64_loop_truncated; [exact Hp | lia].
Qed.

Lemma truncated_encodings_are_NonMinimal_witness :
  DecodeU32 bytesRead [xff; xff] = (0%N, Some ErrNonMinimal, []).
Proof.
  apply (proj1 (truncated_encodings_are_NonMinimal [xff; xff] [xff; xff; x0f]
                  ltac:(discriminate)) 4294967295%N); reflexivity.
Defined.
